(** * go-canvas: the paginated streaming engine

    A shallow embedding of the parts of [course.go] that stream a
    paginated collection (the page decoders, the pagers, the collecting
    loops of the [List...] calls, the error-handler registration),
    together with the paginator, the error bridge and the error types
    they are built on.

    Goroutines and channels are modelled by labelled machines: the fetch
    goroutine is a deterministic machine whose next action is a function
    of its state, and each call site (collecting loop, streaming call,
    idle consumer) is a step relation that pairs the machine's actions
    with the receives of the other goroutines.  Channels are unbuffered,
    as [make(assignmentChan)] and [make(chan *User)] create them: a send
    is a step only together with the matching receive. *)

From Stdlib Require Import List String Ascii ZArith Bool Lia Relations.
From Stdlib Require Import DecimalString DecimalZ DecimalPos.
Import ListNotations.
Open Scope string_scope.

Set Implicit Arguments.

(* ================================================================= *)
(** ** Errors *)

(** [errorMsg], [AuthError] and [Error] as the test [TestErrors] builds
    and decodes them. *)
Record errorMsg := { Message : string }.

Record AuthError := { Status : string; Errors : list errorMsg }.

(** The JSON object [{"errors": {...}, "message": "..."}] after
    [json.Unmarshal]: the field/message mapping in the order of the
    object's keys, and the top-level message ([""] when absent). *)
Record Error := { ErrorFields : list (string * string); ErrorMessage : string }.

(** Modelled from the spec: [checkErrors] (errors.go) is missing; the
    messages are joined by a comma and a space, and the empty list gives
    the empty text. *)
Definition checkErrors (errs : list errorMsg) : string :=
  String.concat ", " (map Message errs).

(** Modelled from the spec: [AuthError.Error] is missing; the text is
    "STATUS: msg1, msg2" when a status is present, else the joined
    messages. *)
Definition AuthError_Error (e : AuthError) : string :=
  if String.eqb (Status e) "" then checkErrors (Errors e)
  else Status e ++ ": " ++ checkErrors (Errors e).

Definition fieldMessage (kv : string * string) : string :=
  fst kv ++ ": " ++ snd kv.

(** Modelled from the spec: [Error.Error] is missing; a message, when
    there is one, is the text, else the text is derived from the
    field/message mapping as "field: message" pairs. *)
Definition Error_Error (e : Error) : string :=
  if String.eqb (ErrorMessage e) "" then
    String.concat ", " (map fieldMessage (ErrorFields e))
  else ErrorMessage e.

(** A non-nil Go [error] value: one of the two API error payloads, or an
    error of another package (transport, encoding/json) known by its
    text. *)
Inductive error : Type :=
| ErrAuth (e : AuthError)
| ErrAPI (e : Error)
| ErrOther (text : string).

Definition error_text (e : error) : string :=
  match e with
  | ErrAuth a => AuthError_Error a
  | ErrAPI a => Error_Error a
  | ErrOther t => t
  end.

(* ================================================================= *)
(** ** Requests, responses and resources *)

Definition URL := string.
Definition Body := string.
Definition Header := list (string * list string).

(** An [Option] of a call: a query parameter and its values. *)
Definition Option := (string * list string)%type.

Record Response := {
  StatusCode : Z;
  RespHeader : Header;
  RespBody : Body
}.

(** The HTTP client behind the [doer] interface. *)
Record client := { host : string; token : string }.

(** A value of the interface type [doer]; [None] is the nil interface. *)
Definition doer := option client.

(** What a handler invocation does: it panics, or it returns, having
    sent on the quit channel or not. *)
Inductive handled : Type :=
| Panics (e : error)
| Returns (quit : bool).

Definition errorHandlerFunc := error -> handled.

(** The resources keep a few of their JSON fields and all of their
    unexported ones.  [errorHandler] is [None] for a nil func. *)
Record Course := {
  ID : Z;
  Name : string;
  UUID : string;
  CourseCode : string;
  WorkflowState : string;
  AccountID : Z;
  course_client : doer;
  errorHandler : option errorHandlerFunc
}.

Record Assignment := {
  as_Name : string;
  as_Description : string;
  as_ID : Z;
  as_CourseID : Z;
  as_courseCode : string;
  as_client : doer
}.

(** [parent] is a [*Folder]: a folder reached through the pointer, or nil. *)
#[local] Set Warnings "-register-all".
Inductive Folder : Type := mkFolder {
  fo_ID : Z;
  fo_Name : string;
  fo_FullName : string;
  fo_client : doer;
  fo_parent : option Folder
}.

Record File := {
  fi_ID : Z;
  fi_FolderID : Z;
  fi_Filename : string;
  fi_client : doer;
  fi_folder : option Folder
}.

Record User := {
  us_ID : Z;
  us_Name : string;
  us_Email : string;
  us_client : doer
}.

(** The collaborators of the engine: the request capability (a
    transport failure or a response that is not a success comes back as
    [inl]), the cursor carried by the response headers, and
    encoding/json's decoding of a page body into a slice ([inl] is the
    error [Decode] returns; the elements of a decoded slice are taken
    to be non-nil). *)
Record Env := {
  request : doer -> URL -> list Option -> error + Response;
  nextLink : Header -> option URL;
  decodeAssignments : Body -> error + list Assignment;
  decodeFiles : Body -> error + list File;
  decodeFolders : Body -> error + list Folder;
  decodeUsers : Body -> error + list User
}.

(* ================================================================= *)
(** ** Page decoders and pagers (course.go) *)

(** A [sendFunc] reads one page body, sends items on the item channel
    it has captured and returns an error or nil.  Its effect is given
    as the items it sends, in order, and the value it then returns. *)
Definition sendFunc (Item : Type) := Body -> list Item * option error.

(** [newPaginatedList(d, path, send, opts)]: the paginator holds the
    request capability, the first URL, the decoder and the query
    options; the item channel reaches it only inside [send]. *)
Record paginated (Item : Type) := newPaginatedList {
  pg_do : doer;
  pg_path : URL;
  pg_send : sendFunc Item;
  pg_opts : list Option
}.

Definition itoa (n : Z) : string := NilZero.string_of_int (Z.to_int n).

(** [fmt.Sprintf(s, n)] for a format with one [%d] verb. *)
Fixpoint sprintf_d (s : string) (n : Z) : string :=
  match s with
  | String "%" (String "d" rest) => itoa n ++ rest
  | String ch rest => String ch (sprintf_d rest n)
  | EmptyString => EmptyString
  end.

(** [Course.id] *)
Definition Course_id (c : Course) (s : string) : string := sprintf_d s (ID c).

(** [Course.setclient] *)
Definition Course_setclient (c : Course) (d : doer) : Course :=
  {| ID := ID c; Name := Name c; UUID := UUID c; CourseCode := CourseCode c;
     WorkflowState := WorkflowState c; AccountID := AccountID c;
     course_client := d; errorHandler := errorHandler c |}.

(** [Course.SetErrorHandler] *)
Definition SetErrorHandler (c : Course) (f : option errorHandlerFunc) : Course :=
  {| ID := ID c; Name := Name c; UUID := UUID c; CourseCode := CourseCode c;
     WorkflowState := WorkflowState c; AccountID := AccountID c;
     course_client := course_client c; errorHandler := f |}.

(** [defaultErrorHandler]: [panic(err)]. *)
Definition defaultErrorHandler : errorHandlerFunc := fun err => Panics err.

(** Modelled from the spec: [File.setclient] and [Folder.setclient]
    (file.go) are missing; like [Course.setclient] they store the
    capability in the receiver's [client] field. *)
Definition File_setclient (d : doer) (f : File) : File :=
  {| fi_ID := fi_ID f; fi_FolderID := fi_FolderID f; fi_Filename := fi_Filename f;
     fi_client := d; fi_folder := fi_folder f |}.

Definition Folder_setclient (d : doer) (f : Folder) : Folder :=
  {| fo_ID := fo_ID f; fo_Name := fo_Name f; fo_FullName := fo_FullName f;
     fo_client := d; fo_parent := fo_parent f |}.

Definition File_setfolder (folder : option Folder) (f : File) : File :=
  {| fi_ID := fi_ID f; fi_FolderID := fi_FolderID f; fi_Filename := fi_Filename f;
     fi_client := fi_client f; fi_folder := folder |}.

Definition Folder_setparent (parent : option Folder) (f : Folder) : Folder :=
  {| fo_ID := fo_ID f; fo_Name := fo_Name f; fo_FullName := fo_FullName f;
     fo_client := fo_client f; fo_parent := parent |}.

Definition User_setclient (d : doer) (u : User) : User :=
  {| us_ID := us_ID u; us_Name := us_Name u; us_Email := us_Email u; us_client := d |}.

Definition Assignment_own (d : doer) (code : string) (a : Assignment) : Assignment :=
  {| as_Name := as_Name a; as_Description := as_Description a; as_ID := as_ID a;
     as_CourseID := as_CourseID a; as_courseCode := code; as_client := d |}.

(** [sendFilesFunc(d, ch, folder)] *)
Definition sendFilesFunc (env : Env) (d : doer) (folder : option Folder) : sendFunc File :=
  fun r =>
    match decodeFiles env r with
    | inl err => ([], Some err)
    | inr files => (map (fun f => File_setfolder folder (File_setclient d f)) files, None)
    end.

(** [sendFoldersFunc(d, ch, parent)] *)
Definition sendFoldersFunc (env : Env) (d : doer) (parent : option Folder) : sendFunc Folder :=
  fun r =>
    match decodeFolders env r with
    | inl err => ([], Some err)
    | inr folders => (map (fun f => Folder_setparent parent (Folder_setclient d f)) folders, None)
    end.

(** [sendUserFunc(d, ch)] *)
Definition sendUserFunc (env : Env) (d : doer) : sendFunc User :=
  fun r =>
    match decodeUsers env r with
    | inl err => ([], Some err)
    | inr list => (map (User_setclient d) list, None)
    end.

(** The closure [assignmentspager] passes as decoder; the course is
    the one the call was made on, unchanged while the pages come in. *)
Definition sendAssignments (env : Env) (c : Course) : sendFunc Assignment :=
  fun r =>
    match decodeAssignments env r with
    | inl err => ([], Some err)
    | inr asses => (map (Assignment_own (course_client c) (CourseCode c)) asses, None)
    end.

(** [Course.filespager], [Course.folderspager], [Course.assignmentspager] *)
Definition filespager (env : Env) (c : Course) (params : list Option) : paginated File :=
  newPaginatedList (course_client c) (Course_id c "/courses/%d/files")
    (sendFilesFunc env (course_client c) None) params.

Definition folderspager (env : Env) (c : Course) (params : list Option) : paginated Folder :=
  newPaginatedList (course_client c) (Course_id c "/courses/%d/folders")
    (sendFoldersFunc env (course_client c) None) params.

Definition assignmentspager (env : Env) (c : Course) (params : list Option)
  : paginated Assignment :=
  newPaginatedList (course_client c) (Course_id c "/courses/%d/assignments")
    (sendAssignments env c) params.

(** The paginator [collectUsers] builds for its [path]. *)
Definition userspager (env : Env) (c : Course) (path : string) (opts : list Option)
  : paginated User :=
  newPaginatedList (course_client c) (sprintf_d path (ID c))
    (sendUserFunc env (course_client c)) opts.

(* ================================================================= *)
(** ** The paginator *)

(** What the fetch goroutine does, one action at a time. *)
Inductive event (Item : Type) : Type :=
| EvFetch (u : URL)        (* one HTTP GET *)
| EvItem (a : Item)        (* a send on the item channel, made by the decoder *)
| EvRelease                (* the page response is released *)
| EvErr (e : error)        (* a send on the error channel *)
| EvCloseItems             (* the run is over for the item stream *)
| EvCloseErrs.             (* the error channel is closed *)

Arguments EvFetch {Item} u.
Arguments EvItem {Item} a.
Arguments EvRelease {Item}.
Arguments EvErr {Item} e.
Arguments EvCloseItems {Item}.
Arguments EvCloseErrs {Item}.

(** Where the fetch goroutine stands. *)
Inductive pstate (Item : Type) : Type :=
| AtFetch (u : URL)
| AtDecode (resp : Response) (items : list Item) (res : option error)
| AtRaise (e : error)
| AtCloseItems
| AtCloseErrs
| Stopped.

Arguments AtFetch {Item} u.
Arguments AtDecode {Item} resp items res.
Arguments AtRaise {Item} e.
Arguments AtCloseItems {Item}.
Arguments AtCloseErrs {Item}.
Arguments Stopped {Item}.

(** Modelled from the spec: [paginated.start] (pagination.go) is
    missing.  The fetch loop of section 4.1: while a current URL is set,
    fetch the page (a failure is sent on the error stream and ends the
    loop); decode the body with the supplied function, which pushes each
    item on the item stream (a failure is sent and ends the loop);
    take the cursor from the headers, release the response, and go on
    with the cursor or, without one, leave the loop.  After the loop the
    item stream is closed, then the error stream.

    [pnext] gives the next action of the goroutine and the state after
    it; [None] when the goroutine has returned.  The paginator was built
    without the item channel, so of this channel it does only what the
    decoder does: [EvCloseItems] marks the point from which no push is
    made, the channel stays with the caller who made it. *)
Definition pnext {Item} (env : Env) (p : paginated Item) (st : pstate Item)
  : option (event Item * pstate Item) :=
  match st with
  | AtFetch u =>
      match request env (pg_do p) u (pg_opts p) with
      | inl e => Some (EvFetch u, AtRaise e)
      | inr resp =>
          let (items, res) := pg_send p (RespBody resp) in
          Some (EvFetch u, AtDecode resp items res)
      end
  | AtDecode resp (a :: rest) res => Some (EvItem a, AtDecode resp rest res)
  | AtDecode resp [] (Some e) => Some (EvErr e, AtCloseItems)
  | AtDecode resp [] None =>
      match nextLink env (RespHeader resp) with
      | Some u' => Some (EvRelease, AtFetch u')
      | None => Some (EvRelease, AtCloseItems)
      end
  | AtRaise e => Some (EvErr e, AtCloseItems)
  | AtCloseItems => Some (EvCloseItems, AtCloseErrs)
  | AtCloseErrs => Some (EvCloseErrs, Stopped)
  | Stopped => None
  end.

(** [start]: the goroutine is launched at the paginator's path. *)
Definition start {Item} (p : paginated Item) : pstate Item := AtFetch (pg_path p).

(** The first [n] actions of the goroutine when nothing holds it back. *)
Fixpoint events {Item} (env : Env) (p : paginated Item) (n : nat) (st : pstate Item)
  : list (event Item) :=
  match n with
  | O => []
  | S k =>
      match pnext env p st with
      | None => []
      | Some (ev, st') => ev :: events env p k st'
      end
  end.

(** The items the decoder has still to push in the state [st]. *)
Definition pending {Item} (st : pstate Item) : list Item :=
  match st with
  | AtDecode _ items _ => items
  | _ => []
  end.

(** Actions that involve no channel partner. *)
Definition internal {Item} (ev : event Item) : bool :=
  match ev with
  | EvFetch _ | EvRelease | EvCloseItems => true
  | _ => false
  end.

Definition isErr {Item} (ev : event Item) : bool :=
  match ev with EvErr _ => true | _ => false end.

Definition isItem {Item} (ev : event Item) : bool :=
  match ev with EvItem _ => true | _ => false end.

Definition isFetch {Item} (ev : event Item) : bool :=
  match ev with EvFetch _ => true | _ => false end.

(** The items among a list of actions, in order. *)
Fixpoint itemsOf {Item} (evs : list (event Item)) : list Item :=
  match evs with
  | [] => []
  | EvItem a :: rest => a :: itemsOf rest
  | _ :: rest => itemsOf rest
  end.

(** From [u], the pages with the items [pages] are fetched and decoded
    without error, one after the other, each with a cursor, and the
    cursor of the last of them is [u']. *)
Inductive reaches {Item} (env : Env) (p : paginated Item)
  : URL -> list (list Item) -> URL -> Prop :=
| reaches_nil : forall u, reaches env p u [] u
| reaches_cons : forall u resp items u' pages u'',
    request env (pg_do p) u (pg_opts p) = inr resp ->
    pg_send p (RespBody resp) = (items, None) ->
    nextLink env (RespHeader resp) = Some u' ->
    reaches env p u' pages u'' ->
    reaches env p u (items :: pages) u''.

(** The page at [u] decodes to [items] and carries no cursor. *)
Definition lastPage {Item} (env : Env) (p : paginated Item) (u : URL) (items : list Item)
  : Prop :=
  exists resp,
    request env (pg_do p) u (pg_opts p) = inr resp /\
    pg_send p (RespBody resp) = (items, None) /\
    nextLink env (RespHeader resp) = None.

(** The page at [u] is fetched, and its decoder pushes [pushed] and then
    fails with [e]. *)
Definition failingPage {Item} (env : Env) (p : paginated Item) (u : URL)
  (pushed : list Item) (e : error) : Prop :=
  exists resp,
    request env (pg_do p) u (pg_opts p) = inr resp /\
    pg_send p (RespBody resp) = (pushed, Some e).

(* ================================================================= *)
(** ** The collecting loop *)

(** [ListAssignments], [collectUsers] and [DiscussionTopics] run the
    same loop next to the fetch goroutine:
    [for { select { case x := <-ch: xs = append(xs, x)
                    case err := <-errs: return xs, err } }].
    The state is the fetch goroutine, whether the error channel is
    closed, the slice so far, and the pair returned once the loop has
    returned.  The item channel is local to the call and handed to the
    decoder only, so nothing closes it. *)
Inductive collecting (Item : Type) : Type :=
  Collecting (prod : pstate Item) (errsClosed : bool) (xs : list Item)
             (ret : option (list Item * option error)).

Definition co_ret {Item} (s : collecting Item) : option (list Item * option error) :=
  let (_, _, _, ret) := s in ret.

Inductive cstep {Item} (env : Env) (p : paginated Item)
  : collecting Item -> collecting Item -> Prop :=
| cs_internal : forall prod ev prod' ec xs ret,
    pnext env p prod = Some (ev, prod') -> internal ev = true ->
    cstep env p (Collecting prod ec xs ret) (Collecting prod' ec xs ret)
| cs_item : forall prod a prod' ec xs,
    (* the send [ch <- a] meets [case x := <-ch] *)
    pnext env p prod = Some (EvItem a, prod') ->
    cstep env p (Collecting prod ec xs None) (Collecting prod' ec (xs ++ [a]) None)
| cs_err : forall prod e prod' ec xs,
    (* the send on the error channel meets [case err := <-errs] *)
    pnext env p prod = Some (EvErr e, prod') ->
    cstep env p (Collecting prod ec xs None) (Collecting prod' ec xs (Some (xs, Some e)))
| cs_closeErrs : forall prod prod' ec xs ret,
    pnext env p prod = Some (EvCloseErrs, prod') ->
    cstep env p (Collecting prod ec xs ret) (Collecting prod' true xs ret)
| cs_closed : forall prod xs,
    (* a receive from the closed error channel gives nil *)
    cstep env p (Collecting prod true xs None) (Collecting prod true xs (Some (xs, None))).

(** The error channel is closed by the last action of the goroutine. *)
Definition co_settled {Item} (s : collecting Item) : Prop :=
  let (prod, ec, _, _) := s in ec = true -> prod = Stopped.

(** The call starts the paginator and enters the loop with an empty slice. *)
Definition collect_init {Item} (p : paginated Item) : collecting Item :=
  Collecting (start p) false [] None.

(** The loop over the paginator [p] can return [r]. *)
Definition collects {Item} (env : Env) (p : paginated Item)
  (r : list Item * option error) : Prop :=
  exists s, clos_refl_trans _ (cstep env p) (collect_init p) s /\ co_ret s = Some r.

(** [Course.ListAssignments] *)
Definition ListAssignments (env : Env) (c : Course) (opts : list Option)
  (r : list Assignment * option error) : Prop :=
  collects env (assignmentspager env c opts) r.

(** [Course.collectUsers] *)
Definition collectUsers (env : Env) (c : Course) (path : string) (opts : list Option)
  (r : list User * option error) : Prop :=
  collects env (userspager env c path opts) r.

(** [Course.Users] *)
Definition Users (env : Env) (c : Course) (opts : list Option)
  (r : list User * option error) : Prop :=
  collectUsers env c "/courses/%d/users" opts r.

(** [Opt(key, val)] *)
Definition Opt (key val : string) : Option := (key, [val]).

(** [Course.SearchUsers] *)
Definition SearchUsers (env : Env) (c : Course) (term : string) (opts : list Option)
  (r : list User * option error) : Prop :=
  collectUsers env c "/courses/%d/search_users" (opts ++ [Opt "search_term" term])%list r.

(* ================================================================= *)
(** ** Streaming calls and the error bridge *)

(** The goroutine [handleErrs(errs, ch, handler)]. *)
Inductive bridge : Type :=
| BridgeWaiting               (* receiving from the error channel *)
| BridgeHandling (e : error)  (* an error arrived; the handler is invoked next *)
| BridgeClosing               (* [ch.Close()] is next *)
| BridgeDone.

(** The caller's side of the item channel: not receiving, inside a
    [for x := range ch] loop, or past it. *)
Inductive consumer : Type :=
| Away
| Ranging
| RangeDone.

(** A streaming call in flight: the fetch goroutine, the bridge, the
    item channel (closed or not), the error channel (closed or not),
    the consumer with the items its loop has yielded, the number of
    page fetches issued, and whether the process has panicked. *)
Inductive streaming (Item : Type) : Type :=
  Streaming (prod : pstate Item) (br : bridge) (closed errsClosed : bool)
            (cons : consumer) (received : list Item) (fetches : nat)
            (panicked : bool).

Definition sm_prod {Item} (s : streaming Item) : pstate Item :=
  let (prod, _, _, _, _, _, _, _) := s in prod.
Definition sm_bridge {Item} (s : streaming Item) : bridge :=
  let (_, br, _, _, _, _, _, _) := s in br.
Definition sm_closed {Item} (s : streaming Item) : bool :=
  let (_, _, closed, _, _, _, _, _) := s in closed.
Definition sm_consumer {Item} (s : streaming Item) : consumer :=
  let (_, _, _, _, cons, _, _, _) := s in cons.
Definition sm_received {Item} (s : streaming Item) : list Item :=
  let (_, _, _, _, _, received, _, _) := s in received.
Definition sm_fetches {Item} (s : streaming Item) : nat :=
  let (_, _, _, _, _, _, fetches, _) := s in fetches.
Definition sm_panicked {Item} (s : streaming Item) : bool :=
  let (_, _, _, _, _, _, _, panicked) := s in panicked.

(** Modelled from the spec: [handleErrs] (pagination.go) is missing.
    The bridge of section 4.2 waits for a value on the error stream; if
    a real error arrives it invokes the handler with it; if the handler
    sets the cancellation signal the bridge closes the collection
    object ([assignmentChan.Close] is [close(ac)]), else the item stream
    is left open.  When the error stream ends without a value the
    bridge closes the collection as well: it alone holds the channel,
    and the range loops over a run without error end.

    The handler is the value the [go] statement captured.  A panic
    stops the process: a panicked state takes no step. *)
Inductive sstep {Item} (env : Env) (p : paginated Item) (handler : option errorHandlerFunc)
  : streaming Item -> streaming Item -> Prop :=
| ss_fetch : forall prod u prod' br cl ec k r n,
    pnext env p prod = Some (EvFetch u, prod') ->
    sstep env p handler (Streaming prod br cl ec k r n false)
                        (Streaming prod' br cl ec k r (S n) false)
| ss_release : forall prod prod' br cl ec k r n,
    pnext env p prod = Some (EvRelease, prod') ->
    sstep env p handler (Streaming prod br cl ec k r n false)
                        (Streaming prod' br cl ec k r n false)
| ss_closeItems : forall prod prod' br cl ec k r n,
    pnext env p prod = Some (EvCloseItems, prod') ->
    sstep env p handler (Streaming prod br cl ec k r n false)
                        (Streaming prod' br cl ec k r n false)
| ss_item : forall prod a prod' br ec r n,
    (* the send [ch <- a] meets the receive of the range loop *)
    pnext env p prod = Some (EvItem a, prod') ->
    sstep env p handler (Streaming prod br false ec Ranging r n false)
                        (Streaming prod' br false ec Ranging (r ++ [a]) n false)
| ss_item_closed : forall prod a prod' br ec k r n,
    (* a send on a closed channel panics *)
    pnext env p prod = Some (EvItem a, prod') ->
    sstep env p handler (Streaming prod br true ec k r n false)
                        (Streaming prod br true ec k r n true)
| ss_err : forall prod e prod' cl ec k r n,
    (* the send on the error channel meets the bridge's receive *)
    pnext env p prod = Some (EvErr e, prod') ->
    sstep env p handler (Streaming prod BridgeWaiting cl ec k r n false)
                        (Streaming prod' (BridgeHandling e) cl ec k r n false)
| ss_closeErrs : forall prod prod' br cl ec k r n,
    pnext env p prod = Some (EvCloseErrs, prod') ->
    sstep env p handler (Streaming prod br cl ec k r n false)
                        (Streaming prod' br cl true k r n false)
| ss_no_error : forall prod cl k r n,
    (* the error channel was closed without a value *)
    sstep env p handler (Streaming prod BridgeWaiting cl true k r n false)
                        (Streaming prod BridgeClosing cl true k r n false)
| ss_handler_nil : forall prod e cl ec k r n,
    (* calling a nil func panics *)
    handler = None ->
    sstep env p handler (Streaming prod (BridgeHandling e) cl ec k r n false)
                        (Streaming prod (BridgeHandling e) cl ec k r n true)
| ss_handler_panics : forall prod e h x cl ec k r n,
    handler = Some h -> h e = Panics x ->
    sstep env p handler (Streaming prod (BridgeHandling e) cl ec k r n false)
                        (Streaming prod (BridgeHandling e) cl ec k r n true)
| ss_handler_quits : forall prod e h cl ec k r n,
    handler = Some h -> h e = Returns true ->
    sstep env p handler (Streaming prod (BridgeHandling e) cl ec k r n false)
                        (Streaming prod BridgeClosing cl ec k r n false)
| ss_handler_continues : forall prod e h cl ec k r n,
    handler = Some h -> h e = Returns false ->
    sstep env p handler (Streaming prod (BridgeHandling e) cl ec k r n false)
                        (Streaming prod BridgeDone cl ec k r n false)
| ss_close : forall prod ec k r n,
    sstep env p handler (Streaming prod BridgeClosing false ec k r n false)
                        (Streaming prod BridgeDone true ec k r n false)
| ss_close_closed : forall prod ec k r n,
    (* closing a closed channel panics *)
    sstep env p handler (Streaming prod BridgeClosing true ec k r n false)
                        (Streaming prod BridgeClosing true ec k r n true)
| ss_range_end : forall prod br ec r n,
    (* the range loop over a closed channel ends *)
    sstep env p handler (Streaming prod br true ec Ranging r n false)
                        (Streaming prod br true ec RangeDone r n false).

(** A stream as the streaming calls hand it to the two goroutines: the
    paginator and the handler read from the course at the call. *)
Record stream (Item : Type) := {
  sr_pager : paginated Item;
  sr_handler : option errorHandlerFunc
}.

(** The goroutines of a stream right after the call, with the caller in
    the state [k]. *)
Definition stream_init {Item} (s : stream Item) (k : consumer) : streaming Item :=
  Streaming (start (sr_pager s)) BridgeWaiting false false k [] 0 false.

(** The caller starts a range loop over the channel of a stream in flight. *)
Definition rangeOver {Item} (s : streaming Item) : streaming Item :=
  let (prod, br, cl, ec, _, r, n, pk) := s in Streaming prod br cl ec Ranging r n pk.

(** The goroutine is past its loop. *)
Definition closing {Item} (st : pstate Item) : bool :=
  match st with
  | AtCloseItems | AtCloseErrs | Stopped => true
  | _ => false
  end.

(** What holds of a stream in flight at every moment: the error channel
    is closed by the last action of the fetch goroutine; the bridge
    leaves its receive only when that goroutine is past its loop; and
    the item channel is closed by the last action of the bridge. *)
Definition sm_wf {Item} (s : streaming Item) : Prop :=
  let (prod, br, cl, ec, _, _, _, _) := s in
  (ec = true -> prod = Stopped) /\
  (br <> BridgeWaiting -> closing prod = true) /\
  (cl = true -> br = BridgeDone).

(** How far a stream in flight is from rest once its error has gone to
    the bridge: the actions the fetch goroutine has left, the steps the
    bridge has left, and the end of the range loop. *)
Definition weight {Item} (s : streaming Item) : nat :=
  let (prod, br, _, _, k, _, _, _) := s in
  match prod with
  | AtCloseItems => 2 | AtCloseErrs => 1 | Stopped => 0 | _ => 3
  end
  + match br with
    | BridgeWaiting => 3 | BridgeHandling _ => 2 | BridgeClosing => 1 | BridgeDone => 0
    end
  + match k with Ranging => 1 | _ => 0 end.

(** [Course.Assignments] *)
Definition Assignments (env : Env) (c : Course) (opts : list Option) : stream Assignment :=
  {| sr_pager := assignmentspager env c opts; sr_handler := errorHandler c |}.

(** [Course.Folders] *)
Definition Folders (env : Env) (c : Course) (opts : list Option) : stream Folder :=
  {| sr_pager := folderspager env c opts; sr_handler := errorHandler c |}.

(** Modelled from the spec: [filesChannel] (file.go) is missing; like
    [Assignments] and [Folders] it makes the channel, builds the
    paginator with [sendFilesFunc] and starts the bridge with the
    handler it was given. *)
Definition filesChannel (env : Env) (d : doer) (path : string)
  (handler : option errorHandlerFunc) (opts : list Option) (folder : option Folder)
  : stream File :=
  {| sr_pager := newPaginatedList d path (sendFilesFunc env d folder) opts;
     sr_handler := handler |}.

(** [Course.Files] *)
Definition Files (env : Env) (c : Course) (opts : list Option) : stream File :=
  filesChannel env (course_client c) (Course_id c "/courses/%d/files")
    (errorHandler c) opts None.

(* ================================================================= *)
(** ** Calls on a course *)

(** Modelled from the spec: the calls that build a [Course] (canvas.go)
    are missing; a course they hand out carries the session's request
    capability and, until [SetErrorHandler] is called, the fatal
    default handler. *)
Definition newCourse (d : doer) (decoded : Course) : Course :=
  SetErrorHandler (Course_setclient decoded d) (Some defaultErrorHandler).

Inductive call : Type :=
| CallSetErrorHandler (f : option errorHandlerFunc)
| CallSetclient (d : doer)
| CallAssignments (opts : list Option)
| CallFiles (opts : list Option)
| CallFolders (opts : list Option).

(** A stream started by one of the three streaming calls. *)
Inductive started : Type :=
| StartedAssignments (s : stream Assignment)
| StartedFiles (s : stream File)
| StartedFolders (s : stream Folder).

Definition handlerOf (s : started) : option errorHandlerFunc :=
  match s with
  | StartedAssignments s => sr_handler s
  | StartedFiles s => sr_handler s
  | StartedFolders s => sr_handler s
  end.

(** One call on the course: the course after it, and the streams in
    flight, the newest last. *)
Definition exec (env : Env) (st : Course * list started) (k : call)
  : Course * list started :=
  let (c, running) := st in
  match k with
  | CallSetErrorHandler f => (SetErrorHandler c f, running)
  | CallSetclient d => (Course_setclient c d, running)
  | CallAssignments opts => (c, (running ++ [StartedAssignments (Assignments env c opts)])%list)
  | CallFiles opts => (c, (running ++ [StartedFiles (Files env c opts)])%list)
  | CallFolders opts => (c, (running ++ [StartedFolders (Folders env c opts)])%list)
  end.

Definition execs (env : Env) (st : Course * list started) (ks : list call)
  : Course * list started :=
  fold_left (exec env) ks st.

Definition isSetErrorHandler (k : call) : bool :=
  match k with CallSetErrorHandler _ => true | _ => false end.

(* ================================================================= *)
(** ** A small server to run the model on *)

Definition demoClient : doer := Some {| host := "canvas.test"; token := "t0" |}.

Definition demoUser (n : Z) (name : string) : User :=
  {| us_ID := n; us_Name := name; us_Email := ""; us_client := None |}.

Definition demoAssignment (n : Z) (name : string) : Assignment :=
  {| as_Name := name; as_Description := ""; as_ID := n; as_CourseID := 7;
     as_courseCode := ""; as_client := None |}.

Definition demoPage (body : Body) (link : list string) : error + Response :=
  inr {| StatusCode := 200;
         RespHeader := match link with [] => [] | _ => [("Link", link)] end;
         RespBody := body |}.

(** Three pages of users and of assignments; the third page of users
    is not a JSON array, and [/gone] cannot be fetched. *)
Definition demoEnv : Env :=
  {| request := fun _ u _ =>
       if String.eqb u "/courses/7/users" then demoPage "users-1" ["/u2"]
       else if String.eqb u "/u2" then demoPage "users-2" []
       else if String.eqb u "/courses/7/search_users" then demoPage "users-1" ["/u3"]
       else if String.eqb u "/u3" then demoPage "not-an-array" ["/u2"]
       else if String.eqb u "/courses/7/assignments" then demoPage "assignments-1" ["/a2"]
       else if String.eqb u "/a2" then demoPage "assignments-2" []
       else inl (ErrAuth {| Status := "unauthenticated";
                            Errors := [{| Message := "user authorization required" |}] |});
     nextLink := fun h =>
       match h with
       | (_, u :: _) :: _ => Some u
       | _ => None
       end;
     decodeAssignments := fun b =>
       if String.eqb b "assignments-1" then inr [demoAssignment 1 "essay"]
       else if String.eqb b "assignments-2" then inr [demoAssignment 2 "quiz"]
       else inl (ErrOther "json: cannot unmarshal object");
     decodeFiles := fun _ => inl (ErrOther "json: cannot unmarshal object");
     decodeFolders := fun _ => inl (ErrOther "json: cannot unmarshal object");
     decodeUsers := fun b =>
       if String.eqb b "users-1" then inr [demoUser 1 "ada"; demoUser 2 "bob"]
       else if String.eqb b "users-2" then inr [demoUser 3 "cy"]
       else inl (ErrOther "json: cannot unmarshal object") |}.

Definition demoCourse : Course :=
  newCourse demoClient
    {| ID := 7; Name := "Logic"; UUID := "u-7"; CourseCode := "LOG-7";
       WorkflowState := "available"; AccountID := 1;
       course_client := None; errorHandler := None |}.

(** A handler that always sets the cancellation signal. *)
Definition quitHandler : errorHandlerFunc := fun _ => Returns true.


(* ================================================================= *)
(** ** Further calls of course.go *)

(** [Course.ContextCode] *)
Definition ContextCode (c : Course) : string := sprintf_d "course_%d" (ID c).

(** A text without the character that starts a verb. *)
Fixpoint plain (s : string) : bool :=
  match s with
  | EmptyString => true
  | String ch rest => negb (Ascii.eqb ch "%") && plain rest
  end.

(** Every item the loop holds, has returned, or is about to receive
    satisfies [P]. *)
Definition co_all {Item} (P : Item -> Prop) (s : collecting Item) : Prop :=
  let (prod, _, xs, ret) := s in
  Forall P (pending prod) /\ Forall P xs /\
  forall r, ret = Some r -> Forall P (fst r).

(** A second course on the small server. *)
Definition demoCourse2 : Course :=
  newCourse demoClient
    {| ID := 8; Name := "Sets"; UUID := "u-8"; CourseCode := "SET-8";
       WorkflowState := "available"; AccountID := 1;
       course_client := None; errorHandler := None |}.

(* ================================================================= *)
(** ** The test helper [deauthorize] (the tests in main.go)

    [deauthorize] writes through the pointers behind a [doer], so here
    a doer is seen by what it points to: the [http.Client] (its own, or
    the one embedded in a [*client]) and, behind the client's
    [Transport], the [*auth] that carries the token.  Pointers are
    addresses into a session; all of them are taken to be non-nil. *)

Record auth := { au_host : string; au_token : string }.

(** The dynamic type of a [Transport]: an [*auth], or another
    [RoundTripper] such as [http.DefaultTransport]. *)
Inductive transport : Type :=
| TransportAuth (au : nat)
| TransportOther.

(** The dynamic type of a [doer]: [*client], [*http.Client], or
    anything else (the nil interface included). *)
Inductive doerRef : Type :=
| RefClient (cli : nat)
| RefHTTPClient (cli : nat)
| RefOther.

Record session := {
  transports : nat -> transport;   (* the Transport field of each http.Client *)
  auths : nat -> auth              (* the auth objects *)
}.

(** [au.token = tok] *)
Definition setToken (s : session) (au : nat) (tok : string) : session :=
  {| transports := transports s;
     auths := fun a =>
       if Nat.eqb a au then {| au_host := au_host (auths s a); au_token := tok |}
       else auths s a |}.

(** The [*auth] a doer sends its requests through, if it has one. *)
Definition authOf (s : session) (d : doerRef) : option nat :=
  match d with
  | RefClient cli | RefHTTPClient cli =>
      match transports s cli with
      | TransportAuth au => Some au
      | TransportOther => None
      end
  | RefOther => None
  end.

(** The token a request through the doer would carry. *)
Definition tokenOf (s : session) (d : doerRef) : option string :=
  match authOf s d with
  | Some au => Some (au_token (auths s au))
  | None => None
  end.

(** The two closures [deauthorize] returns: the one that prints the
    warning, and the one that puts the captured token back into the
    captured [*auth]. *)
Inductive undo : Type :=
| UndoWarning
| UndoToken (au : nat) (token : string).

(** [deauthorize(d)]: the session after the call and the closure
    returned.  The calls are taken one at a time, as the mutex makes
    them. *)
Definition deauthorize (d : doerRef) (s : session) : session * undo :=
  match d with
  | RefClient cli | RefHTTPClient cli =>
      match transports s cli with
      | TransportAuth au => (setToken s au "", UndoToken au (au_token (auths s au)))
      | TransportOther => (s, UndoWarning)
      end
  | RefOther => (s, UndoWarning)
  end.

(** A call of the returned closure: the session after it and the lines
    it prints. *)
Definition runUndo (u : undo) (s : session) : session * list string :=
  match u with
  | UndoWarning => (s, ["warning: client no deauthorized"])
  | UndoToken au token => (setToken s au token, [])
  end.

(** One client behind an [*auth] with a token, one behind the default
    transport. *)
Definition demoSession : session :=
  {| transports := fun cli => if Nat.eqb cli 0 then TransportAuth 5 else TransportOther;
     auths := fun _ => {| au_host := "canvas.test"; au_token := "t0" |} |}.

(* ================================================================= *)
(** * Properties *)

(** ** Error texts *)

Lemma checkErrors_nil : checkErrors [] = "".
Proof. reflexivity. Qed.

Lemma AuthError_Error_status (c : ascii) (st : string) (errs : list errorMsg) :
  AuthError_Error {| Status := String c st; Errors := errs |}
  = String c st ++ ": " ++ checkErrors errs.
Proof. reflexivity. Qed.

Lemma Error_Error_message (c : ascii) (m : string) (fields : list (string * string)) :
  Error_Error {| ErrorFields := fields; ErrorMessage := String c m |} = String c m.
Proof. reflexivity. Qed.

Lemma Error_Error_field (k v : string) :
  Error_Error {| ErrorFields := [(k, v)]; ErrorMessage := "" |} = k ++ ": " ++ v.
Proof. reflexivity. Qed.

(** C8: for every payload, an error with a status renders as
    "STATUS: msg1, msg2, ...", the messages of its whole list joined by
    a comma; one with a message list only as "msg1, msg2, ..."; one
    with the field/message mapping only as its "field: message" pairs,
    all of them, joined likewise; one with a top-level message as that
    message.  So the payload with errors [end_date -> no] and message
    [error] renders as "error", and the one with errors
    [end_date -> no] alone as "end_date: no". *)
Theorem C8_error_rendering :
  (forall c st errs,
      error_text (ErrAuth {| Status := String c st; Errors := errs |})
      = String c st ++ ": " ++ String.concat ", " (map Message errs)) /\
  (forall errs,
      error_text (ErrAuth {| Status := ""; Errors := errs |})
      = String.concat ", " (map Message errs)) /\
  (forall fields,
      error_text (ErrAPI {| ErrorFields := fields; ErrorMessage := "" |})
      = String.concat ", " (map (fun kv => fst kv ++ ": " ++ snd kv) fields)) /\
  (forall c m fields,
      error_text (ErrAPI {| ErrorFields := fields; ErrorMessage := String c m |})
      = String c m) /\
  (forall c st m1 m2,
      error_text (ErrAuth {| Status := String c st;
                             Errors := [{| Message := m1 |}; {| Message := m2 |}] |})
      = String c st ++ ": " ++ m1 ++ ", " ++ m2) /\
  (forall m1 m2,
      error_text (ErrAuth {| Status := "";
                             Errors := [{| Message := m1 |}; {| Message := m2 |}] |})
      = m1 ++ ", " ++ m2) /\
  (forall k v,
      error_text (ErrAPI {| ErrorFields := [(k, v)]; ErrorMessage := "" |})
      = k ++ ": " ++ v) /\
  AuthError_Error {| Status := "test";
                     Errors := [{| Message := "one" |}; {| Message := "two" |}] |}
  = "test: one, two" /\
  AuthError_Error {| Status := "test";
                     Errors := [{| Message := "one" |}; {| Message := "two" |};
                                {| Message := "three" |}] |}
  = "test: one, two, three" /\
  AuthError_Error {| Status := "";
                     Errors := [{| Message := "one" |}; {| Message := "two" |}] |}
  = "one, two" /\
  checkErrors [] = "" /\
  Error_Error {| ErrorFields := [("end_date", "no")]; ErrorMessage := "error" |} = "error" /\
  Error_Error {| ErrorFields := [("end_date", "no")]; ErrorMessage := "" |} = "end_date: no" /\
  Error_Error {| ErrorFields := [("end_date", "no"); ("name", "taken")];
                 ErrorMessage := "" |}
  = "end_date: no, name: taken".
Proof.
  split; [| split; [| split; [| split; [| split; [| split; [| split]]]]]].
  - intros c st errs. cbn [error_text]. apply AuthError_Error_status.
  - intros errs. reflexivity.
  - intros fields. reflexivity.
  - intros c m fields. cbn [error_text]. apply Error_Error_message.
  - intros c st m1 m2. cbn [error_text].
    rewrite AuthError_Error_status. reflexivity.
  - intros m1 m2. reflexivity.
  - intros k v. apply Error_Error_field.
  - repeat split.
Qed.

(** ** Page decoders *)

Open Scope list_scope.

Section Decoders.
Variable env : Env.

Lemma sendFilesFunc_result d folder r :
  (exists e, sendFilesFunc env d folder r = ([], Some e)) \/
  (exists files, decodeFiles env r = inr files /\
     sendFilesFunc env d folder r
     = (map (fun f => File_setfolder folder (File_setclient d f)) files, None)).
Proof.
  unfold sendFilesFunc. destruct (decodeFiles env r) as [e | files]; eauto.
Qed.

Lemma sendFoldersFunc_result d parent r :
  (exists e, sendFoldersFunc env d parent r = ([], Some e)) \/
  (exists folders, decodeFolders env r = inr folders /\
     sendFoldersFunc env d parent r
     = (map (fun f => Folder_setparent parent (Folder_setclient d f)) folders, None)).
Proof.
  unfold sendFoldersFunc. destruct (decodeFolders env r) as [e | folders]; eauto.
Qed.

Lemma sendUserFunc_result d r :
  (exists e, sendUserFunc env d r = ([], Some e)) \/
  (exists list, decodeUsers env r = inr list /\
     sendUserFunc env d r = (map (User_setclient d) list, None)).
Proof.
  unfold sendUserFunc. destruct (decodeUsers env r) as [e | list]; eauto.
Qed.

Lemma sendAssignments_result c r :
  (exists e, sendAssignments env c r = ([], Some e)) \/
  (exists asses, decodeAssignments env r = inr asses /\
     sendAssignments env c r
     = (map (Assignment_own (course_client c) (CourseCode c)) asses, None)).
Proof.
  unfold sendAssignments. destruct (decodeAssignments env r) as [e | asses]; eauto.
Qed.
End Decoders.

(** C4: when a page decoder returns an error it has sent no item of
    that page: [sendFilesFunc], [sendFoldersFunc], [sendUserFunc] and
    the decoder of [assignmentspager] unmarshal the whole body first. *)
Theorem C4_decode_all_or_nothing (env : Env) (d : doer) (folder parent : option Folder)
  (c : Course) (r : Body) :
  (snd (sendFilesFunc env d folder r) <> None -> fst (sendFilesFunc env d folder r) = []) /\
  (snd (sendFoldersFunc env d parent r) <> None ->
   fst (sendFoldersFunc env d parent r) = []) /\
  (snd (sendUserFunc env d r) <> None -> fst (sendUserFunc env d r) = []) /\
  (snd (sendAssignments env c r) <> None -> fst (sendAssignments env c r) = []).
Proof.
  repeat split.
  - destruct (sendFilesFunc_result env d folder r) as [[e H] | [xs [_ H]]];
      rewrite H; cbn; congruence.
  - destruct (sendFoldersFunc_result env d parent r) as [[e H] | [xs [_ H]]];
      rewrite H; cbn; congruence.
  - destruct (sendUserFunc_result env d r) as [[e H] | [xs [_ H]]];
      rewrite H; cbn; congruence.
  - destruct (sendAssignments_result env c r) as [[e H] | [xs [_ H]]];
      rewrite H; cbn; congruence.
Qed.

Lemma C4_decode_all_or_nothing_witness :
  fst (sendFilesFunc demoEnv demoClient None "not-an-array") = [] /\
  fst (sendFoldersFunc demoEnv demoClient None "not-an-array") = [] /\
  fst (sendUserFunc demoEnv demoClient "not-an-array") = [] /\
  fst (sendAssignments demoEnv demoCourse "not-an-array") = [].
Proof.
  destruct (C4_decode_all_or_nothing demoEnv demoClient None None demoCourse "not-an-array")
    as (Hfiles & Hfolders & Husers & Hasses).
  refine (conj (Hfiles _) (conj (Hfolders _) (conj (Husers _) (Hasses _))));
    cbn; discriminate.
Defined.

(** ** Ownership of the items *)

Section Ownership.
Context {Item : Type}.
Variables (env : Env) (p : paginated Item) (P : Item -> Prop).
Hypothesis send_P : forall body, Forall P (fst (pg_send p body)).

Lemma pnext_pending ev st st' :
  pnext env p st = Some (ev, st') -> Forall P (pending st) ->
  Forall P (pending st') /\ (forall a, ev = EvItem a -> P a).
Proof.
  intros Hn Hst. destruct st as [u | resp items res | e | | |]; cbn in Hn.
  - destruct (request env (pg_do p) u (pg_opts p)) as [e | resp].
    + inversion Hn; subst. split; [constructor | discriminate].
    + specialize (send_P (RespBody resp)).
      destruct (pg_send p (RespBody resp)) as [items res].
      inversion Hn; subst. split; [exact send_P | discriminate].
  - destruct items as [| a rest].
    + destruct res as [e |].
      * inversion Hn; subst. split; [constructor | discriminate].
      * destruct (nextLink env (RespHeader resp)); inversion Hn; subst;
          (split; [constructor | discriminate]).
    + inversion Hn; subst. cbn in Hst. inversion Hst; subst.
      split; [assumption |]. intros a' Ha'. inversion Ha'; subst. assumption.
  - inversion Hn; subst. split; [constructor | discriminate].
  - inversion Hn; subst. split; [constructor | discriminate].
  - inversion Hn; subst. split; [constructor | discriminate].
  - discriminate.
Qed.

Lemma events_items_Forall n : forall st,
  Forall P (pending st) -> Forall P (itemsOf (events env p n st)).
Proof.
  induction n as [| n IH]; intros st Hst; cbn; [constructor |].
  destruct (pnext env p st) as [[ev st'] |] eqn:Hn; [| constructor].
  destruct (pnext_pending _ Hn Hst) as [Hst' Hev].
  specialize (IH st' Hst').
  destruct ev; cbn; try assumption.
  constructor; [apply Hev; reflexivity | assumption].
Qed.

Lemma stream_items_Forall n : Forall P (itemsOf (events env p n (start p))).
Proof. apply events_items_Forall. constructor. Qed.
End Ownership.

Lemma Forall_map_intro {A B} (P : B -> Prop) (f : A -> B) (xs : list A) :
  (forall x, P (f x)) -> Forall P (map f xs).
Proof. intros H. induction xs; cbn; constructor; auto. Qed.

Lemma sendFilesFunc_owned env d folder body :
  Forall (fun f => fi_client f = d /\ fi_folder f = folder)
         (fst (sendFilesFunc env d folder body)).
Proof.
  destruct (sendFilesFunc_result env d folder body) as [[e H] | [xs [_ H]]]; rewrite H; cbn.
  - constructor.
  - apply Forall_map_intro. intros f. split; reflexivity.
Qed.

Lemma sendFoldersFunc_owned env d parent body :
  Forall (fun f => fo_client f = d /\ fo_parent f = parent)
         (fst (sendFoldersFunc env d parent body)).
Proof.
  destruct (sendFoldersFunc_result env d parent body) as [[e H] | [xs [_ H]]]; rewrite H; cbn.
  - constructor.
  - apply Forall_map_intro. intros f. split; reflexivity.
Qed.

Lemma sendUserFunc_owned env d body :
  Forall (fun u => us_client u = d) (fst (sendUserFunc env d body)).
Proof.
  destruct (sendUserFunc_result env d body) as [[e H] | [xs [_ H]]]; rewrite H; cbn.
  - constructor.
  - apply Forall_map_intro. intros u. reflexivity.
Qed.

Lemma sendAssignments_owned env c body :
  Forall (fun a => as_client a = course_client c /\ as_courseCode a = CourseCode c)
         (fst (sendAssignments env c body)).
Proof.
  destruct (sendAssignments_result env c body) as [[e H] | [xs [_ H]]]; rewrite H; cbn.
  - constructor.
  - apply Forall_map_intro. intros a. split; reflexivity.
Qed.

(** C9: every item the fetch goroutine sends on an item stream has its
    client field set to the paginator's request capability, and every
    assignment also has its courseCode set to the course's code; this
    holds for every page and every item, for the streams of files,
    folders, users and assignments of a course. *)
Theorem C9_items_carry_client (env : Env) (c : Course) (params : list Option)
  (path : string) (n : nat) :
  Forall (fun f => fi_client f = pg_do (filespager env c params))
    (itemsOf (events env (filespager env c params) n (start (filespager env c params)))) /\
  Forall (fun f => fo_client f = pg_do (folderspager env c params))
    (itemsOf (events env (folderspager env c params) n (start (folderspager env c params)))) /\
  Forall (fun u => us_client u = pg_do (userspager env c path params))
    (itemsOf (events env (userspager env c path params) n
                (start (userspager env c path params)))) /\
  Forall (fun a => as_client a = pg_do (assignmentspager env c params) /\
                   as_courseCode a = CourseCode c)
    (itemsOf (events env (assignmentspager env c params) n
                (start (assignmentspager env c params)))).
Proof.
  repeat split; apply stream_items_Forall; intros body; cbn [pg_send pg_do
    filespager folderspager userspager assignmentspager].
  - eapply Forall_impl; [| apply sendFilesFunc_owned]. cbn. intros f [H _]. exact H.
  - eapply Forall_impl; [| apply sendFoldersFunc_owned]. cbn. intros f [H _]. exact H.
  - apply sendUserFunc_owned.
  - apply sendAssignments_owned.
Qed.

(** ** The handler of a course *)

Section Calls.
Variable env : Env.

Lemma handlerOf_exec c running k :
  isSetErrorHandler k = false ->
  errorHandler (fst (exec env (c, running) k)) = errorHandler c /\
  exists new, snd (exec env (c, running) k) = (running ++ new)%list /\
              Forall (fun s => handlerOf s = errorHandler c) new.
Proof.
  intros Hk. destruct k as [f | d | opts | opts | opts]; cbn in *;
    try discriminate; split; try reflexivity.
  - exists []. rewrite app_nil_r. split; [reflexivity | constructor].
  - eexists. split; [reflexivity |]. repeat constructor.
  - eexists. split; [reflexivity |]. repeat constructor.
  - eexists. split; [reflexivity |]. repeat constructor.
Qed.

(** Calls other than [SetErrorHandler] leave the handler of the
    course alone, and the streams they start run under it. *)
Lemma execs_same_handler ks : forall c running,
  forallb (fun k => negb (isSetErrorHandler k)) ks = true ->
  errorHandler (fst (execs env (c, running) ks)) = errorHandler c /\
  exists new, snd (execs env (c, running) ks) = (running ++ new)%list /\
              Forall (fun s => handlerOf s = errorHandler c) new.
Proof.
  induction ks as [| k ks IH]; intros c running Hks.
  - split; [reflexivity |]. exists []. cbn. rewrite app_nil_r.
    split; [reflexivity | constructor].
  - cbn in Hks. apply andb_true_iff in Hks. destruct Hks as [Hk Hks].
    apply negb_true_iff in Hk.
    destruct (handlerOf_exec c running k Hk) as [Hc [new1 [Hrun Hnew1]]].
    unfold execs. cbn [fold_left]. fold (execs env (exec env (c, running) k) ks).
    destruct (exec env (c, running) k) as [c1 running1] eqn:Hexec. cbn in Hc, Hrun.
    destruct (IH c1 running1 Hks) as [Hc2 [new2 [Hrun2 Hnew2]]].
    split; [rewrite Hc2; exact Hc |].
    exists (new1 ++ new2)%list. subst running1. rewrite Hrun2, app_assoc.
    split; [reflexivity |]. apply Forall_app. split; [assumption |].
    rewrite Hc in Hnew2. assumption.
Qed.

(** No call touches a stream that is already in flight. *)
Lemma execs_keeps_running ks : forall c running,
  exists new, snd (execs env (c, running) ks) = (running ++ new)%list.
Proof.
  induction ks as [| k ks IH]; intros c running.
  - exists []. cbn. rewrite app_nil_r. reflexivity.
  - assert (Hk : exists c1 new1, exec env (c, running) k = (c1, (running ++ new1)%list)).
    { destruct k; cbn; eexists; eexists; try reflexivity;
        rewrite app_nil_r; reflexivity. }
    destruct Hk as [c1 [new1 Hk]].
    unfold execs. cbn [fold_left]. fold (execs env (exec env (c, running) k) ks).
    rewrite Hk.
    destruct (IH c1 (running ++ new1)%list) as [new2 Hnew2].
    exists (new1 ++ new2)%list. rewrite Hnew2, app_assoc. reflexivity.
Qed.

Lemma execs_app st ks1 ks2 :
  execs env st (ks1 ++ ks2) = execs env (execs env st ks1) ks2.
Proof. unfold execs. apply fold_left_app. Qed.
End Calls.

(** C7: on a course on which SetErrorHandler was never called, the
    streaming calls run under the default handler, which panics on
    every error; once SetErrorHandler is called, the streaming calls
    made from then on (until the next such call) run under the handler
    it installed. *)
Theorem C7_default_and_replaced_handler (env : Env) (d : doer) (decoded : Course) :
  (forall e, defaultErrorHandler e = Panics e) /\
  (forall ks,
      forallb (fun k => negb (isSetErrorHandler k)) ks = true ->
      Forall (fun s => handlerOf s = Some defaultErrorHandler)
             (snd (execs env (newCourse d decoded, []) ks))) /\
  (forall ks1 f ks2,
      forallb (fun k => negb (isSetErrorHandler k)) ks2 = true ->
      let st := execs env (newCourse d decoded, []) (ks1 ++ [CallSetErrorHandler f]) in
      Forall (fun s => handlerOf s = f)
             (skipn (List.length (snd st)) (snd (execs env st ks2)))).
Proof.
  split; [reflexivity |]. split.
  - intros ks Hks.
    destruct (execs_same_handler env ks (newCourse d decoded) [] Hks) as [_ [new [Hrun Hnew]]].
    rewrite Hrun. exact Hnew.
  - intros ks1 f ks2 Hks st. subst st. rewrite execs_app.
    destruct (execs env (newCourse d decoded, []) ks1) as [c1 running1].
    replace (execs env (c1, running1) [CallSetErrorHandler f])
      with (SetErrorHandler c1 f, running1) by reflexivity.
    destruct (execs_same_handler env ks2 (SetErrorHandler c1 f) running1 Hks)
      as [_ [new [Hrun Hnew]]].
    rewrite Hrun. cbn [snd].
    rewrite skipn_app, skipn_all, Nat.sub_diag. exact Hnew.
Qed.

Lemma C7_default_and_replaced_handler_witness :
  Forall (fun s => handlerOf s = Some defaultErrorHandler)
         (snd (execs demoEnv (demoCourse, [])
                 [CallAssignments []; CallSetclient None; CallFiles []])) /\
  Forall (fun s => handlerOf s = Some quitHandler)
         (skipn 1 (snd (execs demoEnv
                          (execs demoEnv (demoCourse, [])
                             [CallFolders []; CallSetErrorHandler (Some quitHandler)])
                          [CallAssignments []; CallFiles []]))).
Proof.
  destruct (C7_default_and_replaced_handler demoEnv demoClient
              {| ID := 7; Name := "Logic"; UUID := "u-7"; CourseCode := "LOG-7";
                 WorkflowState := "available"; AccountID := 1;
                 course_client := None; errorHandler := None |}) as (_ & Hdefault & Hset).
  split.
  - apply Hdefault. reflexivity.
  - apply (Hset [CallFolders []] (Some quitHandler) [CallAssignments []; CallFiles []]).
    reflexivity.
Defined.

(** C10: SetErrorHandler changes the errorHandler field of the course
    and no other; Assignments, Files and Folders read the handler once,
    when the stream is started; so the calls that follow, SetErrorHandler
    among them, leave every stream already in flight with the handler
    (and the paginator) it was started with. *)
Theorem C10_handler_snapshot (env : Env) (c : Course) :
  (forall f,
      ID (SetErrorHandler c f) = ID c /\
      Name (SetErrorHandler c f) = Name c /\
      UUID (SetErrorHandler c f) = UUID c /\
      CourseCode (SetErrorHandler c f) = CourseCode c /\
      WorkflowState (SetErrorHandler c f) = WorkflowState c /\
      AccountID (SetErrorHandler c f) = AccountID c /\
      course_client (SetErrorHandler c f) = course_client c /\
      errorHandler (SetErrorHandler c f) = f) /\
  (forall opts,
      sr_handler (Assignments env c opts) = errorHandler c /\
      sr_handler (Files env c opts) = errorHandler c /\
      sr_handler (Folders env c opts) = errorHandler c) /\
  (forall running ks,
      firstn (List.length running) (snd (execs env (c, running) ks)) = running) /\
  (forall opts f ks,
      nth_error (snd (execs env (c, [])
                        (CallAssignments opts :: CallSetErrorHandler f :: ks))) 0
      = Some (StartedAssignments (Assignments env c opts)) /\
      nth_error (snd (execs env (c, [])
                        (CallFiles opts :: CallSetErrorHandler f :: ks))) 0
      = Some (StartedFiles (Files env c opts)) /\
      nth_error (snd (execs env (c, [])
                        (CallFolders opts :: CallSetErrorHandler f :: ks))) 0
      = Some (StartedFolders (Folders env c opts))).
Proof.
  split; [| split; [| split]].
  - intros f. repeat split.
  - intros opts. repeat split.
  - intros running ks. destruct (execs_keeps_running env ks c running) as [new Hnew].
    rewrite Hnew, firstn_app, Nat.sub_diag, firstn_all. cbn. apply app_nil_r.
  - intros opts f ks. cbn [execs fold_left exec app]. repeat split.
    + destruct (execs_keeps_running env ks (SetErrorHandler c f)
                  [StartedAssignments (Assignments env c opts)]) as [new Hnew].
      unfold execs in Hnew. rewrite Hnew. reflexivity.
    + destruct (execs_keeps_running env ks (SetErrorHandler c f)
                  [StartedFiles (Files env c opts)]) as [new Hnew].
      unfold execs in Hnew. rewrite Hnew. reflexivity.
    + destruct (execs_keeps_running env ks (SetErrorHandler c f)
                  [StartedFolders (Folders env c opts)]) as [new Hnew].
      unfold execs in Hnew. rewrite Hnew. reflexivity.
Qed.

(** ** The error stream of a run *)

Section Run.
Context {Item : Type}.
Variables (env : Env) (p : paginated Item).

(** Case analysis on the state behind an equation [pnext _ _ st = Some _]. *)
Ltac pnext_cases H :=
  match type of H with
  | pnext _ _ ?st = Some _ =>
      destruct st as [? | ? [| ? ?] [?|] | ? | | |]; cbn in H;
      repeat match type of H with
             | context [match ?x with _ => _ end] => destruct x
             end;
      try discriminate; inversion H; subst
  end.

(** An error is sent from two places, and from both the goroutine
    goes on to its closing actions. *)
Lemma pnext_err st e st' :
  pnext env p st = Some (EvErr e, st') -> st' = AtCloseItems.
Proof. intros H. pnext_cases H; reflexivity. Qed.

Lemma pnext_closeErrs st st' :
  pnext env p st = Some (EvCloseErrs, st') -> st' = Stopped.
Proof. intros H. pnext_cases H; reflexivity. Qed.




End Run.









(** ** The collecting loop *)

Section Collector.
Context {Item : Type}.
Variables (env : Env) (p : paginated Item).

#[local] Abbreviation step := (cstep env p).
#[local] Abbreviation steps := (clos_refl_trans (collecting Item) (cstep env p)).

(** Once the loop has returned, its result stays. *)
Lemma cstep_ret s s' r : step s s' -> co_ret s = Some r -> co_ret s' = Some r.
Proof. intros H. inversion H; subst; cbn; congruence. Qed.

Lemma csteps_ret s s' r : steps s s' -> co_ret s = Some r -> co_ret s' = Some r.
Proof. induction 1; eauto using cstep_ret. Qed.

Lemma cstep_settled s s' : step s s' -> co_settled s -> co_settled s'.
Proof.
  intros H. inversion H; subst; cbn; intros Hs Hec; auto.
  - specialize (Hs Hec). subst. discriminate.
  - specialize (Hs Hec). subst. discriminate.
  - specialize (Hs Hec). subst. discriminate.
  - eapply pnext_closeErrs; eassumption.
Qed.

Lemma csteps_settled s s' : steps s s' -> co_settled s -> co_settled s'.
Proof. induction 1; eauto using cstep_settled. Qed.

(** The two goroutines leave no choice: a state has one successor. *)
Lemma cstep_deterministic s s1 s2 :
  co_settled s -> step s s1 -> step s s2 -> s1 = s2.
Proof.
  intros Hs H1 H2.
  inversion H1; subst; inversion H2; subst; cbn in Hs;
    try reflexivity;
    try (match goal with
         | H : pnext _ _ ?st = Some _, H' : pnext _ _ ?st = Some _ |- _ =>
             rewrite H in H'; inversion H'; subst
         end; try reflexivity; try discriminate);
    try (rewrite (Hs eq_refl) in *; discriminate).
Qed.

Lemma csteps_linear s a :
  clos_refl_trans_1n _ step s a ->
  forall b, clos_refl_trans_1n _ step s b -> co_settled s ->
            clos_refl_trans_1n _ step a b \/ clos_refl_trans_1n _ step b a.
Proof.
  induction 1 as [s | s s1 a Hstep Hrest IH]; intros b Hb Hs.
  - left. exact Hb.
  - inversion Hb as [| s2 b' Hstep2 Hrest2]; subst.
    + right. econstructor; eassumption.
    + assert (s1 = s2) by (eapply cstep_deterministic; eassumption). subst s2.
      apply IH; [assumption |]. eapply cstep_settled; eassumption.
Qed.

(** Whatever the loop returns on one run, it returns on every run. *)
Lemma collects_unique s0 final r0 :
  co_settled s0 -> steps s0 final -> co_ret final = Some r0 ->
  forall s r, steps s0 s -> co_ret s = Some r -> r = r0.
Proof.
  intros Hs0 Hfinal Hr0 s r Hs Hr.
  apply clos_rt_rt1n_iff in Hfinal. apply clos_rt_rt1n_iff in Hs.
  destruct (csteps_linear Hs Hfinal Hs0) as [Hlin | Hlin];
    apply clos_rt_rt1n_iff in Hlin.
  - pose proof (csteps_ret Hlin Hr). congruence.
  - pose proof (csteps_ret Hlin Hr0). congruence.
Qed.

(** The decoder's sends go to the loop one by one, in order. *)
Lemma collect_items resp res ec items : forall xs,
  steps (Collecting (AtDecode resp items res) ec xs None)
        (Collecting (AtDecode resp [] res) ec (xs ++ items) None).
Proof.
  induction items as [| a rest IH]; intros xs.
  - rewrite app_nil_r. apply rt_refl.
  - eapply rt_trans.
    + apply rt_step. apply cs_item. reflexivity.
    + replace (xs ++ a :: rest) with ((xs ++ [a]) ++ rest)
        by (rewrite <- app_assoc; reflexivity).
      apply IH.
Qed.

Lemma collect_fetch u resp items res xs :
  request env (pg_do p) u (pg_opts p) = inr resp ->
  pg_send p (RespBody resp) = (items, res) ->
  steps (Collecting (AtFetch u) false xs None)
        (Collecting (AtDecode resp [] res) false (xs ++ items) None).
Proof.
  intros Hreq Hsend. eapply rt_trans; [| apply collect_items].
  apply rt_step. eapply cs_internal with (ev := EvFetch u); [| reflexivity].
  cbn. rewrite Hreq, Hsend. reflexivity.
Qed.

Lemma collect_pages u pages u' :
  reaches env p u pages u' ->
  forall xs, steps (Collecting (AtFetch u) false xs None)
                   (Collecting (AtFetch u') false (xs ++ List.concat pages) None).
Proof.
  induction 1 as [u | u resp items u' pages u'' Hreq Hsend Hnext Hrest IH]; intros xs.
  - cbn. rewrite app_nil_r. apply rt_refl.
  - eapply rt_trans; [eapply collect_fetch; eassumption |].
    eapply rt_trans.
    + apply rt_step. eapply cs_internal with (ev := EvRelease); [| reflexivity].
      cbn. rewrite Hnext. reflexivity.
    + cbn [List.concat]. rewrite app_assoc. apply IH.
Qed.

Lemma collect_last u items xs :
  lastPage env p u items ->
  steps (Collecting (AtFetch u) false xs None)
        (Collecting Stopped true (xs ++ items) (Some (xs ++ items, None))).
Proof.
  intros [resp [Hreq [Hsend Hnext]]].
  eapply rt_trans; [eapply collect_fetch; eassumption |].
  eapply rt_trans.
  { apply rt_step. eapply cs_internal with (ev := EvRelease); [| reflexivity].
    cbn. rewrite Hnext. reflexivity. }
  eapply rt_trans.
  { apply rt_step. eapply cs_internal with (ev := EvCloseItems); reflexivity. }
  eapply rt_trans.
  { apply rt_step. eapply cs_closeErrs. reflexivity. }
  apply rt_step. apply cs_closed.
Qed.

Lemma collect_failing u pushed e xs :
  failingPage env p u pushed e ->
  steps (Collecting (AtFetch u) false xs None)
        (Collecting AtCloseItems false (xs ++ pushed) (Some (xs ++ pushed, Some e))).
Proof.
  intros [resp [Hreq Hsend]].
  eapply rt_trans; [eapply collect_fetch; eassumption |].
  apply rt_step. apply cs_err. reflexivity.
Qed.

Lemma collect_init_settled : co_settled (collect_init p).
Proof. cbn. discriminate. Qed.
End Collector.

(** C1: over a sequence of N pages in which no error occurs, the
    collecting loop returns, and what it returns on any run is the
    concatenation of the decoded items in page order, within a page in
    decode order, with a nil error. *)
Theorem C1_collect_all_pages {Item : Type} (env : Env) (p : paginated Item)
  (pages : list (list Item)) (ulast : URL) (items : list Item) :
  reaches env p (pg_path p) pages ulast ->
  lastPage env p ulast items ->
  collects env p (List.concat (pages ++ [items]), None) /\
  (forall r, collects env p r -> r = (List.concat (pages ++ [items]), None)).
Proof.
  intros Hpages Hlast.
  assert (Hrun : clos_refl_trans _ (cstep env p) (collect_init p)
                   (Collecting Stopped true (List.concat (pages ++ [items]))
                      (Some (List.concat (pages ++ [items]), None)))).
  { rewrite concat_app. cbn [List.concat]. rewrite app_nil_r.
    eapply rt_trans; [apply (collect_pages Hpages []) |].
    apply (collect_last _ Hlast). }
  split.
  - eexists. split; [exact Hrun | reflexivity].
  - intros r [s [Hs Hr]].
    eapply collects_unique;
      [apply collect_init_settled | exact Hrun | reflexivity | exact Hs | exact Hr].
Qed.

(** C3: when page K of N fails to decode, the collecting loop returns,
    and what it returns on any run is the items of pages 1..K-1
    followed by the items page K pushed before it failed, with that
    (non-nil) error; nothing of a later page is in it. *)
Theorem C3_collect_until_failure {Item : Type} (env : Env) (p : paginated Item)
  (pages : list (list Item)) (uK : URL) (pushed : list Item) (e : error) :
  reaches env p (pg_path p) pages uK ->
  failingPage env p uK pushed e ->
  collects env p (List.concat pages ++ pushed, Some e) /\
  (forall r, collects env p r -> r = (List.concat pages ++ pushed, Some e)).
Proof.
  intros Hpages Hfail.
  assert (Hrun : clos_refl_trans _ (cstep env p) (collect_init p)
                   (Collecting AtCloseItems false (List.concat pages ++ pushed)
                      (Some (List.concat pages ++ pushed, Some e)))).
  { eapply rt_trans; [apply (collect_pages Hpages []) |].
    apply (collect_failing _ Hfail). }
  split.
  - eexists. split; [exact Hrun | reflexivity].
  - intros r [s [Hs Hr]].
    eapply collects_unique;
      [apply collect_init_settled | exact Hrun | reflexivity | exact Hs | exact Hr].
Qed.

Lemma C1_collect_all_pages_witness :
  Users demoEnv demoCourse []
    ([User_setclient demoClient (demoUser 1 "ada");
      User_setclient demoClient (demoUser 2 "bob");
      User_setclient demoClient (demoUser 3 "cy")], None).
Proof.
  unfold Users, collectUsers.
  refine (proj1 (@C1_collect_all_pages _ demoEnv
                   (userspager demoEnv demoCourse "/courses/%d/users" [])
                   [[User_setclient demoClient (demoUser 1 "ada");
                     User_setclient demoClient (demoUser 2 "bob")]]
                   "/u2" [User_setclient demoClient (demoUser 3 "cy")] _ _)).
  - eapply reaches_cons; [reflexivity | reflexivity | reflexivity | apply reaches_nil].
  - eexists. repeat split.
Defined.

Lemma C3_collect_until_failure_witness :
  SearchUsers demoEnv demoCourse "ada" []
    ([User_setclient demoClient (demoUser 1 "ada");
      User_setclient demoClient (demoUser 2 "bob")],
     Some (ErrOther "json: cannot unmarshal object")).
Proof.
  unfold SearchUsers, collectUsers.
  refine (proj1 (@C3_collect_until_failure _ demoEnv
                   (userspager demoEnv demoCourse "/courses/%d/search_users"
                      [Opt "search_term" "ada"])
                   [[User_setclient demoClient (demoUser 1 "ada");
                     User_setclient demoClient (demoUser 2 "bob")]]
                   "/u3" [] (ErrOther "json: cannot unmarshal object") _ _)).
  - eapply reaches_cons; [reflexivity | reflexivity | reflexivity | apply reaches_nil].
  - eexists. repeat split.
Defined.

(** ** Streams in flight *)

Section Streaming.
Context {Item : Type}.
Variables (env : Env) (p : paginated Item) (handler : option errorHandlerFunc).

#[local] Abbreviation step := (sstep env p handler).
#[local] Abbreviation steps := (clos_refl_trans (streaming Item) (sstep env p handler)).

Lemma pnext_closing st ev st' :
  closing st = true -> pnext env p st = Some (ev, st') ->
  closing st' = true /\ isItem ev = false /\ isErr ev = false /\ isFetch ev = false.
Proof.
  destruct st; cbn; try discriminate; intros _ H; inversion H; subst; cbn; auto.
Qed.

Lemma sstep_wf s s' : step s s' -> sm_wf s -> sm_wf s'.
Proof.
  intros H. inversion H; subst; cbn; intros (Hec & Hbr & Hcl).
  all: repeat split; intros.
  all: try solve [ auto | congruence
                 | specialize (Hcl ltac:(assumption)); discriminate
                 | apply Hbr; discriminate
                 | rewrite (Hec ltac:(assumption)) in *; discriminate
                 | rewrite (Hec eq_refl); reflexivity ].
  all: try (match goal with
       | Hn : pnext _ _ _ = Some (EvErr _, _) |- closing _ = true =>
           apply pnext_err in Hn; subst; reflexivity
       | Hn : pnext _ _ _ = Some (EvCloseErrs, _) |- _ =>
           apply pnext_closeErrs in Hn; subst; reflexivity
       | Hn : pnext _ _ ?st = Some _ |- closing _ = true =>
           apply (pnext_closing st) in Hn; [tauto | auto]
       end).
Qed.

Lemma ssteps_wf s s' : steps s s' -> sm_wf s -> sm_wf s'.
Proof. induction 1; eauto using sstep_wf. Qed.

(** Once the bridge has left its receive, the range loop yields
    nothing more. *)
Lemma sstep_received s s' :
  step s s' -> sm_wf s -> sm_bridge s <> BridgeWaiting ->
  sm_received s' = sm_received s.
Proof.
  intros H. inversion H; subst; cbn; intros (Hec & Hbr & Hcl) Hleft; try reflexivity.
  match goal with
  | Hn : pnext _ _ ?st = Some _ |- _ =>
      apply (pnext_closing st) in Hn; [| auto]
  end.
  cbn in *. intuition discriminate.
Qed.

Lemma sstep_bridge_left s s' :
  step s s' -> sm_bridge s <> BridgeWaiting -> sm_bridge s' <> BridgeWaiting.
Proof. intros H. inversion H; subst; cbn; intros Hleft; congruence. Qed.

(** A consumer that is away stays away and receives nothing. *)
Lemma sstep_away s s' :
  step s s' -> sm_consumer s = Away ->
  sm_consumer s' = Away /\ sm_received s' = sm_received s.
Proof. intros H. inversion H; subst; cbn; intros Hk; try discriminate; auto. Qed.

(** While the goroutine offers an item to an absent consumer,
    nothing moves. *)
Lemma suspended_shape (s : streaming Item) :
  sm_wf s -> pending (sm_prod s) <> [] ->
  exists resp a rest res k r n pk,
    s = Streaming (AtDecode resp (a :: rest) res) BridgeWaiting false false k r n pk.
Proof.
  destruct s as [prod br cl ec k r n pk]. cbn. intros (Hec & Hbr & Hcl) Hp.
  destruct prod as [u | resp [| a rest] res | e | | |]; cbn in Hp; try congruence.
  assert (br = BridgeWaiting).
  { destruct br; try reflexivity; specialize (Hbr ltac:(discriminate)); discriminate. }
  subst br.
  destruct cl; [specialize (Hcl eq_refl); discriminate |].
  destruct ec; [specialize (Hec eq_refl); discriminate |].
  repeat eexists.
Qed.

Lemma suspended_stuck (s s' : streaming Item) :
  sm_wf s -> sm_consumer s = Away -> pending (sm_prod s) <> [] -> ~ step s s'.
Proof.
  intros Hwf Hk Hp H.
  destruct (suspended_shape s Hwf Hp) as (resp & a & rest & res & k & r & n & pk & ->).
  cbn in Hk. subst k. inversion H; subst; cbn in *; discriminate.
Qed.

(** Under a handler that always quits nothing panics, and the bridge
    ends by closing the item channel. *)
Lemma sstep_quit h s s' :
  handler = Some h -> (forall e, h e = Returns true) ->
  step s s' -> sm_wf s ->
  (sm_bridge s = BridgeDone -> sm_closed s = true) ->
  sm_panicked s' = false /\ (sm_bridge s' = BridgeDone -> sm_closed s' = true).
Proof.
  intros Hh Hquit H. inversion H; subst; cbn; intros (Hec & Hbr & Hcl) Hdone.
  all: try (split; [reflexivity | intros; auto; discriminate]).
  all: exfalso.
  - specialize (Hcl eq_refl). subst br.
    match goal with
    | Hn : pnext _ _ ?st = Some _ |- _ =>
        apply (pnext_closing st) in Hn; [| apply Hbr; discriminate]
    end.
    cbn in *. intuition discriminate.
  - discriminate.
  - match goal with Hp : Some _ = Some _ |- _ => inversion Hp; subst end.
    rewrite Hquit in *. discriminate.
  - match goal with Hp : Some _ = Some _ |- _ => inversion Hp; subst end.
    rewrite Hquit in *. discriminate.
  - specialize (Hcl eq_refl). discriminate.
Qed.

(** After the bridge has left its receive, a range loop in progress
    is never left waiting: some goroutine can move. *)
Lemma quit_progress h (s : streaming Item) :
  handler = Some h -> (forall e, h e = Returns true) ->
  sm_wf s -> sm_panicked s = false ->
  (sm_bridge s = BridgeDone -> sm_closed s = true) ->
  sm_bridge s <> BridgeWaiting -> sm_consumer s = Ranging ->
  exists s', step s s'.
Proof.
  intros Hh Hquit. destruct s as [prod br cl ec k r n pk]. cbn.
  intros (Hec & Hbr & Hcl) Hpk Hdone Hleft Hk. subst pk k.
  destruct br as [| e | |].
  - congruence.
  - eexists. eapply ss_handler_quits; [exact Hh | apply Hquit].
  - destruct cl; [specialize (Hcl eq_refl); discriminate |].
    eexists. apply ss_close.
  - rewrite (Hdone eq_refl). eexists. apply ss_range_end.
Qed.

(** After the bridge has left its receive every step brings the
    stream nearer to rest. *)
Lemma sstep_weight s s' :
  step s s' -> sm_wf s -> sm_bridge s <> BridgeWaiting -> sm_panicked s' = false ->
  weight s' < weight s.
Proof.
  intros H. inversion H; subst; cbn; intros (Hec & Hbr & Hcl) Hleft Hpk;
    try discriminate; try congruence; try lia.
  all: specialize (Hbr Hleft).
  all: destruct prod; cbn in *; try discriminate.
  all: match goal with Hn : Some _ = Some _ |- _ => inversion Hn; subst end.
  all: lia.
Qed.

Lemma wf_rangeOver (s : streaming Item) : sm_wf s -> sm_wf (rangeOver s).
Proof. destruct s. cbn. auto. Qed.

(** All of it, along any run that starts where the bridge has left
    its receive. *)
Lemma quit_run h s s' :
  handler = Some h -> (forall e, h e = Returns true) ->
  steps s s' ->
  sm_wf s -> sm_panicked s = false ->
  (sm_bridge s = BridgeDone -> sm_closed s = true) ->
  sm_bridge s <> BridgeWaiting ->
  sm_wf s' /\ sm_panicked s' = false /\
  (sm_bridge s' = BridgeDone -> sm_closed s' = true) /\
  sm_bridge s' <> BridgeWaiting /\
  sm_received s' = sm_received s.
Proof.
  intros Hh Hquit Hrun. apply clos_rt_rt1n_iff in Hrun.
  induction Hrun as [s | s s1 s' Hstep Hrest IH]; intros Hwf Hpk Hdone Hleft.
  - auto.
  - destruct (sstep_quit Hh Hquit Hstep Hwf Hdone) as [Hpk1 Hdone1].
    pose proof (sstep_wf Hstep Hwf) as Hwf1.
    pose proof (sstep_bridge_left Hstep Hleft) as Hleft1.
    pose proof (sstep_received Hstep Hwf Hleft) as Hrec1.
    destruct (IH Hwf1 Hpk1 Hdone1 Hleft1) as (? & ? & ? & ? & Hrec).
    repeat split; try assumption. congruence.
Qed.

(** Before that, too, nothing panics under such a handler. *)
Lemma quit_safe h s s' :
  handler = Some h -> (forall e, h e = Returns true) ->
  steps s s' ->
  sm_wf s -> sm_panicked s = false ->
  (sm_bridge s = BridgeDone -> sm_closed s = true) ->
  sm_wf s' /\ sm_panicked s' = false /\
  (sm_bridge s' = BridgeDone -> sm_closed s' = true).
Proof.
  intros Hh Hquit Hrun. apply clos_rt_rt1n_iff in Hrun.
  induction Hrun as [s | s s1 s' Hstep Hrest IH]; intros Hwf Hpk Hdone.
  - auto.
  - destruct (sstep_quit Hh Hquit Hstep Hwf Hdone) as [Hpk1 Hdone1].
    pose proof (sstep_wf Hstep Hwf) as Hwf1. auto.
Qed.

(** With the consumer away, the goroutine walks through the pages
    that hold no item and stops at the first item it has to send. *)
Lemma idle_walk k : forall u uK resp a rest res n s,
  reaches env p u (repeat [] k) uK ->
  request env (pg_do p) uK (pg_opts p) = inr resp ->
  pg_send p (RespBody resp) = (a :: rest, res) ->
  steps (Streaming (AtFetch u) BridgeWaiting false false Away [] n false) s ->
  sm_fetches s <= n + k + 1 /\
  steps s (Streaming (AtDecode resp (a :: rest) res) BridgeWaiting false false
             Away [] (n + k + 1) false).
Proof.
  induction k as [| k IH]; intros u uK resp a rest res n s Hreach Hreq Hsend Hrun;
    apply clos_rt_rt1n_iff in Hrun.
  - inversion Hreach; subst.
    assert (Hfetch : step (Streaming (AtFetch uK) BridgeWaiting false false Away [] n false)
                       (Streaming (AtDecode resp (a :: rest) res) BridgeWaiting false false
                          Away [] (S n) false)).
    { apply ss_fetch with (u := uK). cbn. rewrite Hreq, Hsend. reflexivity. }
    replace (n + 0 + 1) with (S n) by lia.
    inversion Hrun as [| s1 s2 Hstep Hrest]; subst.
    + cbn. split; [lia |]. apply rt_step. exact Hfetch.
    + inversion Hstep; subst;
        match goal with
        | Hn : pnext _ _ _ = Some _ |- _ =>
            cbn in Hn; rewrite Hreq, Hsend in Hn; inversion Hn; subst
        end.
      inversion Hrest as [| s3 s4 Hstep2 Hrest2]; subst.
      * cbn. split; [lia | apply rt_refl].
      * exfalso. eapply suspended_stuck; [| | | exact Hstep2]; cbn;
          [repeat split; intros; congruence | reflexivity | discriminate].
  - cbn [repeat] in Hreach.
    inversion Hreach as [| u0 resp0 items0 u' pages0 u'' Hreq0 Hsend0 Hnext0 Hrest0];
      subst.
    assert (Hfetch : step (Streaming (AtFetch u) BridgeWaiting false false Away [] n false)
                       (Streaming (AtDecode resp0 [] None) BridgeWaiting false false
                          Away [] (S n) false)).
    { apply ss_fetch with (u := u). cbn. rewrite Hreq0, Hsend0. reflexivity. }
    assert (Hrel : step (Streaming (AtDecode resp0 [] None) BridgeWaiting false false
                           Away [] (S n) false)
                     (Streaming (AtFetch u') BridgeWaiting false false
                        Away [] (S n) false)).
    { apply ss_release. cbn. rewrite Hnext0. reflexivity. }
    assert (Hgo : forall s0,
               steps (Streaming (AtFetch u') BridgeWaiting false false
                        Away [] (S n) false) s0 ->
               sm_fetches s0 <= n + S k + 1 /\
               steps s0 (Streaming (AtDecode resp (a :: rest) res) BridgeWaiting
                           false false Away [] (n + S k + 1) false)).
    { intros s0 Hs0. replace (n + S k + 1) with (S n + k + 1) by lia.
      eapply IH; eassumption. }
    inversion Hrun as [| s1 s2 Hstep Hrest]; subst.
    + split; [cbn [sm_fetches]; lia |].
      eapply rt_trans; [apply rt_step; exact Hfetch |].
      eapply rt_trans; [apply rt_step; exact Hrel |].
      apply Hgo. apply rt_refl.
    + inversion Hstep; subst;
        match goal with
        | Hn : pnext _ _ _ = Some _ |- _ =>
            cbn in Hn; rewrite Hreq0, Hsend0 in Hn; inversion Hn; subst
        end.
      inversion Hrest as [| s3 s4 Hstep2 Hrest2]; subst.
      * split; [cbn [sm_fetches]; lia |].
        eapply rt_trans; [apply rt_step; exact Hrel |].
        apply Hgo. apply rt_refl.
      * inversion Hstep2; subst;
          match goal with
          | Hn : pnext _ _ _ = Some _ |- _ =>
              cbn in Hn; rewrite Hnext0 in Hn; inversion Hn; subst
          end.
        apply Hgo. apply clos_rt_rt1n_iff. exact Hrest2.
Qed.

Lemma away_run s s' :
  steps s s' -> sm_consumer s = Away ->
  sm_consumer s' = Away /\ sm_received s' = sm_received s.
Proof.
  induction 1 as [s s' Hstep | s | s s1 s' _ IH1 _ IH2]; intros Hk.
  - eapply sstep_away; eassumption.
  - auto.
  - destruct (IH1 Hk) as [Hk1 Hr1]. destruct (IH2 Hk1) as [Hk2 Hr2].
    split; [assumption | congruence].
Qed.
End Streaming.

Lemma stream_init_wf {Item} (st : stream Item) k : sm_wf (stream_init st k).
Proof. cbn. repeat split; intros; congruence. Qed.

(** Under the default handler the first error that reaches the bridge
    stops the process: here, a course whose files cannot be fetched. *)
Lemma default_handler_aborts :
  exists s,
    clos_refl_trans _
      (sstep demoEnv (sr_pager (Files demoEnv demoCourse []))
         (sr_handler (Files demoEnv demoCourse [])))
      (stream_init (Files demoEnv demoCourse []) Ranging) s /\
    sm_panicked s = true.
Proof.
  eexists. split.
  - eapply rt_trans.
    { apply rt_step. apply ss_fetch with (u := "/courses/7/files"%string). reflexivity. }
    eapply rt_trans.
    { apply rt_step. apply ss_err. reflexivity. }
    apply rt_step. eapply ss_handler_panics; reflexivity.
  - reflexivity.
Qed.

(** C5: when the handler of a streaming call sets the cancellation
    signal, then from the moment the error has reached the bridge a
    range loop over the item stream, in progress or started later,
    yields no further item, nothing panics, the loop is never left
    without a step to take, and every step brings the stream nearer to
    rest, so the loop ends after a few steps. *)
Theorem C5_cancel_ends_iteration {Item : Type} (env : Env) (st : stream Item)
  (h : errorHandlerFunc) (k0 : consumer) (s : streaming Item) :
  sr_handler st = Some h ->
  (forall e, h e = Returns true) ->
  clos_refl_trans _ (sstep env (sr_pager st) (sr_handler st)) (stream_init st k0) s ->
  sm_panicked s = false /\
  forall t, t = s \/ t = rangeOver s ->
    sm_bridge t <> BridgeWaiting ->
    forall t', clos_refl_trans _ (sstep env (sr_pager st) (sr_handler st)) t t' ->
      sm_panicked t' = false /\
      sm_received t' = sm_received t /\
      (sm_consumer t' = Ranging ->
       exists t'', sstep env (sr_pager st) (sr_handler st) t' t'') /\
      (forall t'', sstep env (sr_pager st) (sr_handler st) t' t'' ->
                   weight t'' < weight t').
Proof.
  intros Hh Hquit Hrun.
  destruct (quit_safe Hh Hquit Hrun (stream_init_wf st k0) eq_refl) as (Hwf & Hpk & Hdone).
  { cbn. discriminate. }
  split; [exact Hpk |].
  intros t Ht Hleft t' Hrun'.
  assert (Ht3 : sm_wf t /\ sm_panicked t = false /\
                (sm_bridge t = BridgeDone -> sm_closed t = true)).
  { destruct Ht as [-> | ->]; [auto |].
    destruct s; cbn in *. auto. }
  destruct Ht3 as (Hwft & Hpkt & Hdonet).
  destruct (quit_run Hh Hquit Hrun' Hwft Hpkt Hdonet Hleft)
    as (Hwf' & Hpk' & Hdone' & Hleft' & Hrec').
  repeat split; try assumption.
  - intros Hk. eapply quit_progress; eassumption.
  - intros t'' Hstep. eapply sstep_weight; try eassumption.
    eapply sstep_quit; eassumption.
Qed.

(** C6: with the unbuffered item stream and a consumer that never
    reads, no item is ever received; once the fetch goroutine has an
    item to send, nothing moves any more, so no page is fetched while
    that item is unread; and when the first page that holds an item is
    page k+1, the goroutine comes to rest on that item after k+1
    fetches and never makes another (for k = 0: no second fetch). *)
Theorem C6_backpressure {Item : Type} (env : Env) (st : stream Item)
  (s : streaming Item) :
  clos_refl_trans _ (sstep env (sr_pager st) (sr_handler st)) (stream_init st Away) s ->
  sm_consumer s = Away /\
  sm_received s = [] /\
  (pending (sm_prod s) <> [] ->
   forall s', ~ sstep env (sr_pager st) (sr_handler st) s s') /\
  (forall k uK resp a rest res,
      reaches env (sr_pager st) (pg_path (sr_pager st)) (repeat [] k) uK ->
      request env (pg_do (sr_pager st)) uK (pg_opts (sr_pager st)) = inr resp ->
      pg_send (sr_pager st) (RespBody resp) = (a :: rest, res) ->
      sm_fetches s <= k + 1 /\
      clos_refl_trans _ (sstep env (sr_pager st) (sr_handler st)) s
        (Streaming (AtDecode resp (a :: rest) res) BridgeWaiting false false
           Away [] (k + 1) false)).
Proof.
  intros Hrun.
  destruct (away_run Hrun eq_refl) as [Hk Hrec].
  pose proof (ssteps_wf Hrun (stream_init_wf st Away)) as Hwf.
  repeat split; try assumption.
  - intros Hp s'. apply suspended_stuck; assumption.
  - eapply (@idle_walk _ env (sr_pager st) (sr_handler st) k _ _ _ _ _ _ 0 s);
      eassumption.
  - eapply (@idle_walk _ env (sr_pager st) (sr_handler st) k _ _ _ _ _ _ 0 s);
      eassumption.
Qed.

Lemma C5_cancel_ends_iteration_witness :
  sm_panicked
    (Streaming (@AtCloseItems File)
       (BridgeHandling
          (ErrAuth {| Status := "unauthenticated";
                      Errors := [{| Message := "user authorization required" |}] |}))
       false false Ranging [] 1 false) = false /\
  exists t'',
    sstep demoEnv
      (sr_pager (Files demoEnv (SetErrorHandler demoCourse (Some quitHandler)) []))
      (sr_handler (Files demoEnv (SetErrorHandler demoCourse (Some quitHandler)) []))
      (Streaming AtCloseItems
         (BridgeHandling
            (ErrAuth {| Status := "unauthenticated";
                        Errors := [{| Message := "user authorization required" |}] |}))
         false false Ranging [] 1 false) t''.
Proof.
  assert (Hrun : clos_refl_trans _
            (sstep demoEnv
               (sr_pager (Files demoEnv (SetErrorHandler demoCourse (Some quitHandler)) []))
               (sr_handler (Files demoEnv (SetErrorHandler demoCourse (Some quitHandler)) [])))
            (stream_init (Files demoEnv (SetErrorHandler demoCourse (Some quitHandler)) [])
               Ranging)
            (Streaming AtCloseItems
               (BridgeHandling
                  (ErrAuth {| Status := "unauthenticated";
                              Errors := [{| Message := "user authorization required" |}] |}))
               false false Ranging [] 1 false)).
  { eapply rt_trans.
    - apply rt_step. apply ss_fetch with (u := "/courses/7/files"%string). reflexivity.
    - apply rt_step. apply ss_err. reflexivity. }
  destruct (@C5_cancel_ends_iteration _ demoEnv
              (Files demoEnv (SetErrorHandler demoCourse (Some quitHandler)) [])
              quitHandler Ranging _ eq_refl (fun _ => eq_refl) Hrun) as [Hpk Hall].
  destruct (Hall _ (or_introl eq_refl) ltac:(discriminate) _ (rt_refl _ _ _))
    as (_ & _ & Hgo & _).
  split; [exact Hpk | apply Hgo; reflexivity].
Defined.

Lemma C6_backpressure_witness :
  sm_received
    (Streaming
       (AtDecode {| StatusCode := 200; RespHeader := [("Link"%string, ["/a2"%string])];
                    RespBody := "assignments-1" |}
          [Assignment_own demoClient "LOG-7" (demoAssignment 1 "essay")] None)
       BridgeWaiting false false Away [] 1 false) = [] /\
  sm_fetches
    (Streaming
       (AtDecode {| StatusCode := 200; RespHeader := [("Link"%string, ["/a2"%string])];
                    RespBody := "assignments-1" |}
          [Assignment_own demoClient "LOG-7" (demoAssignment 1 "essay")] None)
       BridgeWaiting false false Away [] 1 false) <= 0 + 1.
Proof.
  assert (Hrun : clos_refl_trans _
            (sstep demoEnv (sr_pager (Assignments demoEnv demoCourse []))
               (sr_handler (Assignments demoEnv demoCourse [])))
            (stream_init (Assignments demoEnv demoCourse []) Away)
            (Streaming
               (AtDecode {| StatusCode := 200;
                            RespHeader := [("Link"%string, ["/a2"%string])];
                            RespBody := "assignments-1" |}
                  [Assignment_own demoClient "LOG-7" (demoAssignment 1 "essay")] None)
               BridgeWaiting false false Away [] 1 false)).
  { apply rt_step. apply ss_fetch with (u := "/courses/7/assignments"%string). reflexivity. }
  destruct (C6_backpressure Hrun) as (_ & Hrec & _ & Hfetches).
  split; [exact Hrec |].
  refine (proj1 (Hfetches 0 "/courses/7/assignments"%string _ _ _ _
                   (reaches_nil _ _ _) eq_refl eq_refl)).
Defined.

(* ================================================================= *)
(** * Further properties *)

(** ** Paths and context codes *)

Lemma string_app_length (a b : string) :
  String.length (a ++ b)%string = String.length a + String.length b.
Proof. induction a as [| ch a IH]; cbn; [reflexivity | rewrite IH; reflexivity]. Qed.

Lemma string_app_nil_r (a : string) : (a ++ "")%string = a.
Proof. induction a as [| ch a IH]; cbn; [reflexivity | rewrite IH; reflexivity]. Qed.

Lemma string_app_inv_head (pre a b : string) :
  (pre ++ a)%string = (pre ++ b)%string -> a = b.
Proof. induction pre as [| ch pre IH]; cbn; intros H; [exact H | inversion H; auto]. Qed.

Lemma string_app_inv_tail (s : string) : forall a b : string,
  (a ++ s)%string = (b ++ s)%string -> a = b.
Proof.
  intros a b H.
  assert (Hlen : String.length a = String.length b).
  { apply (f_equal String.length) in H. rewrite !string_app_length in H. lia. }
  revert b H Hlen. induction a as [| ch a IH]; intros [| ch' b] H Hlen;
    cbn in *; try discriminate; [reflexivity |].
  inversion H; subst. f_equal. apply IH; [assumption | lia].
Qed.

Lemma sprintf_d_cons (ch : ascii) (rest : string) (n : Z) :
  Ascii.eqb ch "%" = false ->
  sprintf_d (String ch rest) n = String ch (sprintf_d rest n).
Proof.
  intros H. destruct ch as [[] [] [] [] [] [] [] []]; try reflexivity; discriminate.
Qed.

(** A format with a plain prefix before its verb prints the prefix,
    the number and the rest. *)
Lemma sprintf_d_plain (pre post : string) (n : Z) :
  plain pre = true ->
  sprintf_d (pre ++ "%d" ++ post)%string n = (pre ++ itoa n ++ post)%string.
Proof.
  induction pre as [| ch pre IH]; intros Hp; [reflexivity |].
  cbn [plain] in Hp. apply andb_true_iff in Hp. destruct Hp as [Hch Hp].
  apply negb_true_iff in Hch.
  change (String ch pre ++ "%d" ++ post)%string
    with (String ch (pre ++ "%d" ++ post))%string.
  rewrite (sprintf_d_cons _ _ _ Hch), (IH Hp). reflexivity.
Qed.

(** [itoa] can be read back. *)
Lemma itoa_parse (n : Z) :
  option_map Z.of_int (NilZero.int_of_string (itoa n)) = Some n.
Proof.
  unfold itoa. rewrite NilZero.isi.
  - cbn. rewrite DecimalZ.of_to. reflexivity.
  - destruct n as [| q | q]; cbn; try discriminate.
    intros H. inversion H as [H1]. revert H1. apply Unsigned.to_uint_nonnil.
  - destruct n as [| q | q]; cbn; try discriminate.
    intros H. inversion H as [H1]. revert H1. apply Unsigned.to_uint_nonnil.
Qed.

Lemma itoa_injective (a b : Z) : itoa a = itoa b -> a = b.
Proof.
  intros H. pose proof (itoa_parse a) as Ha. rewrite H, itoa_parse in Ha.
  congruence.
Qed.

Lemma sprintf_d_injective (pre post : string) (a b : Z) :
  plain pre = true ->
  sprintf_d (pre ++ "%d" ++ post)%string a = sprintf_d (pre ++ "%d" ++ post)%string b ->
  a = b.
Proof.
  intros Hp H. rewrite !sprintf_d_plain in H by assumption.
  apply string_app_inv_head, string_app_inv_tail in H. apply itoa_injective, H.
Qed.

(** X1: the context code of a course is "course_" followed by the
    decimal ID, and courses with different IDs have different codes. *)
Theorem ContextCode_distinct (c1 c2 : Course) :
  ID c1 <> ID c2 ->
  ContextCode c1 = ("course_" ++ itoa (ID c1))%string /\
  ContextCode c1 <> ContextCode c2.
Proof.
  intros Hne. split.
  - unfold ContextCode.
    transitivity (sprintf_d ("course_" ++ "%d" ++ "")%string (ID c1)); [reflexivity |].
    rewrite sprintf_d_plain by reflexivity. rewrite string_app_nil_r. reflexivity.
  - intros H. apply Hne.
    apply (sprintf_d_injective "course_" "" (ID c1) (ID c2) eq_refl). exact H.
Qed.

Lemma ContextCode_distinct_witness :
  ContextCode demoCourse = "course_7"%string /\
  ContextCode demoCourse <> ContextCode demoCourse2.
Proof.
  refine (@ContextCode_distinct demoCourse demoCourse2 _). cbn. discriminate.
Defined.



(** ** What the decoders forward *)



(** X4: a paginator built on [sendFilesFunc(d, ch, folder)] sends only
    files that carry [folder] and [d], one built on
    [sendFoldersFunc(d, ch, parent)] only folders that carry [parent]
    and [d], on every page; [filespager] and [folderspager] pass nil,
    so the files a course pages through belong to no folder and its
    folders have no parent. *)
Theorem items_carry_folder (env : Env) (d : doer) (folder parent : option Folder)
  (path : URL) (opts : list Option) (c : Course) (n : nat) :
  Forall (fun f => fi_client f = d /\ fi_folder f = folder)
    (itemsOf (events env (newPaginatedList d path (sendFilesFunc env d folder) opts) n
                (start (newPaginatedList d path (sendFilesFunc env d folder) opts)))) /\
  Forall (fun f => fo_client f = d /\ fo_parent f = parent)
    (itemsOf (events env (newPaginatedList d path (sendFoldersFunc env d parent) opts) n
                (start (newPaginatedList d path (sendFoldersFunc env d parent) opts)))) /\
  Forall (fun f => fi_folder f = None)
    (itemsOf (events env (filespager env c opts) n (start (filespager env c opts)))) /\
  Forall (fun f => fo_parent f = None)
    (itemsOf (events env (folderspager env c opts) n (start (folderspager env c opts)))).
Proof.
  repeat split; apply stream_items_Forall; intros body;
    cbn [pg_send filespager folderspager].
  - apply sendFilesFunc_owned.
  - apply sendFoldersFunc_owned.
  - eapply Forall_impl; [| apply sendFilesFunc_owned]. cbn. intros f [_ H]. exact H.
  - eapply Forall_impl; [| apply sendFoldersFunc_owned]. cbn. intros f [_ H]. exact H.
Qed.

(** ** The collecting loop, continued *)

Section CollectorResults.
Context {Item : Type}.
Variables (env : Env) (p : paginated Item).

(** One run that returns fixes what every run returns. *)
Lemma collects_iff final r0 :
  clos_refl_trans _ (cstep env p) (collect_init p) final ->
  co_ret final = Some r0 ->
  forall r, collects env p r <-> r = r0.
Proof.
  intros Hrun Hr0 r. split.
  - intros [s [Hs Hr]].
    eapply collects_unique;
      [apply collect_init_settled | exact Hrun | exact Hr0 | exact Hs | exact Hr].
  - intros ->. exists final. split; assumption.
Qed.

Lemma collect_unfetched u e xs :
  request env (pg_do p) u (pg_opts p) = inl e ->
  clos_refl_trans _ (cstep env p)
    (Collecting (AtFetch u) false xs None)
    (Collecting AtCloseItems false xs (Some (xs, Some e))).
Proof.
  intros Hreq. eapply rt_trans.
  - apply rt_step. eapply cs_internal with (ev := EvFetch u); [| reflexivity].
    cbn. rewrite Hreq. reflexivity.
  - apply rt_step. apply cs_err. reflexivity.
Qed.

Variable P : Item -> Prop.
Hypothesis send_P : forall body, Forall P (fst (pg_send p body)).

Lemma cstep_all s s' : cstep env p s s' -> co_all P s -> co_all P s'.
Proof.
  intros H. inversion H; subst; cbn; intros (Hpend & Hxs & Hret).
  - destruct (@pnext_pending _ env p P send_P _ _ _ H0 Hpend) as [Hpend' _]. auto.
  - destruct (@pnext_pending _ env p P send_P _ _ _ H0 Hpend) as [Hpend' Ha].
    repeat split; [assumption | | discriminate].
    apply Forall_app. split; [assumption |]. constructor; [| constructor].
    apply Ha. reflexivity.
  - destruct (@pnext_pending _ env p P send_P _ _ _ H0 Hpend) as [Hpend' _].
    repeat split; try assumption. intros r Hr. inversion Hr; subst. assumption.
  - destruct (@pnext_pending _ env p P send_P _ _ _ H0 Hpend) as [Hpend' _]. auto.
  - repeat split; try assumption. intros r Hr. inversion Hr; subst. assumption.
Qed.

Lemma collects_all r : collects env p r -> Forall P (fst r).
Proof.
  intros [s [Hs Hr]].
  assert (Hall : co_all P s).
  { assert (H0 : co_all P (collect_init p)).
    { cbn. repeat split; try constructor. discriminate. }
    revert H0. clear Hr. induction Hs; eauto using cstep_all. }
  destruct s as [prod ec xs ret]. cbn in Hr, Hall. destruct Hall as (_ & _ & Hret).
  apply Hret, Hr.
Qed.
End CollectorResults.

(** The users of the small server's first course, collected. *)
Lemma demo_users_collected :
  Users demoEnv demoCourse []
    ([User_setclient demoClient (demoUser 1 "ada");
      User_setclient demoClient (demoUser 2 "bob");
      User_setclient demoClient (demoUser 3 "cy")], None).
Proof.
  unfold Users, collectUsers. eexists. split.
  - eapply rt_trans.
    + apply (@collect_pages _ demoEnv (userspager demoEnv demoCourse "/courses/%d/users" [])
               "/courses/7/users"
               [[User_setclient demoClient (demoUser 1 "ada");
                 User_setclient demoClient (demoUser 2 "bob")]] "/u2").
      eapply reaches_cons; [reflexivity | reflexivity | reflexivity | apply reaches_nil].
    + apply (@collect_last _ demoEnv (userspager demoEnv demoCourse "/courses/%d/users" [])
               "/u2" [User_setclient demoClient (demoUser 3 "cy")]).
      eexists. repeat split.
  - reflexivity.
Qed.

(** X6: in [ListAssignments] and [collectUsers] a page is kept whole
    or not at all: when page K does not decode, what is returned is
    exactly the items of the K-1 pages before it, with the error
    [Decode] gave. *)
Theorem list_calls_keep_whole_pages (env : Env) (c : Course) (opts : list Option)
  (path : string) :
  (forall pages uK resp e,
      reaches env (assignmentspager env c opts)
        (Course_id c "/courses/%d/assignments") pages uK ->
      request env (course_client c) uK opts = inr resp ->
      decodeAssignments env (RespBody resp) = inl e ->
      forall r, ListAssignments env c opts r <-> r = (List.concat pages, Some e)) /\
  (forall pages uK resp e,
      reaches env (userspager env c path opts) (sprintf_d path (ID c)) pages uK ->
      request env (course_client c) uK opts = inr resp ->
      decodeUsers env (RespBody resp) = inl e ->
      forall r, collectUsers env c path opts r <-> r = (List.concat pages, Some e)).
Proof.
  split; intros pages uK resp e Hpages Hreq Hdec.
  - apply collects_iff with
      (final := Collecting AtCloseItems false (List.concat pages ++ [])
                  (Some (List.concat pages ++ [], Some e)));
      [| rewrite app_nil_r; reflexivity].
    eapply rt_trans; [apply (collect_pages Hpages []) |].
    apply collect_failing. exists resp. split; [exact Hreq |].
    cbn [pg_send assignmentspager]. unfold sendAssignments. rewrite Hdec. reflexivity.
  - apply collects_iff with
      (final := Collecting AtCloseItems false (List.concat pages ++ [])
                  (Some (List.concat pages ++ [], Some e)));
      [| rewrite app_nil_r; reflexivity].
    eapply rt_trans; [apply (collect_pages Hpages []) |].
    apply collect_failing. exists resp. split; [exact Hreq |].
    cbn [pg_send userspager]. unfold sendUserFunc. rewrite Hdec. reflexivity.
Qed.

Lemma list_calls_keep_whole_pages_witness :
  SearchUsers demoEnv demoCourse "ada" []
    ([User_setclient demoClient (demoUser 1 "ada");
      User_setclient demoClient (demoUser 2 "bob")],
     Some (ErrOther "json: cannot unmarshal object")).
Proof.
  unfold SearchUsers.
  destruct (list_calls_keep_whole_pages demoEnv demoCourse [Opt "search_term" "ada"]
              "/courses/%d/search_users") as [_ Husers].
  refine (proj2 (Husers [[User_setclient demoClient (demoUser 1 "ada");
                          User_setclient demoClient (demoUser 2 "bob")]]
                   "/u3" _ _ _ eq_refl eq_refl _) eq_refl).
  eapply reaches_cons; [reflexivity | reflexivity | reflexivity | apply reaches_nil].
Defined.

(** X7: when the request for page K fails, the collecting loop returns
    exactly the items of the K-1 pages before it, with the error of the
    request; when the first request fails, nothing and the error. *)
Theorem collect_until_request_fails {Item : Type} (env : Env) (p : paginated Item)
  (pages : list (list Item)) (uK : URL) (e : error) :
  reaches env p (pg_path p) pages uK ->
  request env (pg_do p) uK (pg_opts p) = inl e ->
  forall r, collects env p r <-> r = (List.concat pages, Some e).
Proof.
  intros Hpages Hreq.
  apply collects_iff with
    (final := Collecting AtCloseItems false (List.concat pages)
                (Some (List.concat pages, Some e))); [| reflexivity].
  eapply rt_trans; [apply (collect_pages Hpages []) |].
  apply collect_unfetched. exact Hreq.
Qed.

Lemma collect_until_request_fails_witness :
  ListAssignments demoEnv demoCourse2 []
    ([], Some (ErrAuth {| Status := "unauthenticated";
                          Errors := [{| Message := "user authorization required" |}] |})).
Proof.
  unfold ListAssignments.
  refine (proj2 (@collect_until_request_fails _ demoEnv
                   (assignmentspager demoEnv demoCourse2 []) [] "/courses/8/assignments"
                   _ _ eq_refl _) eq_refl).
  apply reaches_nil.
Defined.

(** X8: whatever the server answers, every assignment
    [ListAssignments] returns carries the course's client and course
    code, and every user [collectUsers] returns carries the course's
    client. *)
Theorem listed_items_carry_client (env : Env) (c : Course) (opts : list Option)
  (path : string) :
  (forall r, ListAssignments env c opts r ->
     Forall (fun a => as_client a = course_client c /\ as_courseCode a = CourseCode c)
            (fst r)) /\
  (forall r, collectUsers env c path opts r ->
     Forall (fun u => us_client u = course_client c) (fst r)).
Proof.
  split; intros r Hr.
  - eapply collects_all; [| exact Hr]. intros body. apply sendAssignments_owned.
  - eapply collects_all; [| exact Hr]. intros body. apply sendUserFunc_owned.
Qed.

Lemma listed_items_carry_client_witness :
  Forall (fun u => us_client u = demoClient)
    [User_setclient demoClient (demoUser 1 "ada");
     User_setclient demoClient (demoUser 2 "bob");
     User_setclient demoClient (demoUser 3 "cy")].
Proof.
  destruct (listed_items_carry_client demoEnv demoCourse [] "/courses/%d/users")
    as [_ Husers].
  exact (Husers _ demo_users_collected).
Defined.

(** ** The test helper [deauthorize] *)

Lemma setToken_same s au tok :
  auths (setToken s au tok) au = {| au_host := au_host (auths s au); au_token := tok |}.
Proof. cbn. rewrite Nat.eqb_refl. reflexivity. Qed.

Lemma setToken_other s au tok a :
  a <> au -> auths (setToken s au tok) a = auths s a.
Proof. intros H. cbn. apply Nat.eqb_neq in H. rewrite H. reflexivity. Qed.

Lemma authOf_setToken s au tok d : authOf (setToken s au tok) d = authOf s d.
Proof. destruct d; reflexivity. Qed.

(** What [deauthorize] does, by the doer it is given. *)
Lemma deauthorize_cases d s :
  (authOf s d = None /\ deauthorize d s = (s, UndoWarning)) \/
  (exists au, authOf s d = Some au /\
     deauthorize d s = (setToken s au "", UndoToken au (au_token (auths s au)))).
Proof.
  destruct d as [cli | cli |]; cbn; try (left; split; reflexivity);
    destruct (transports s cli) as [au |]; eauto.
Qed.

(** X9: calling the closure [deauthorize] returned puts the session
    back as it was: every token and every transport; it prints nothing
    when there was a token to take and the warning when the doer had
    no [*auth], in which case [deauthorize] itself changed nothing. *)
Theorem deauthorize_then_undo (d : doerRef) (s : session) :
  (forall a, auths (fst (runUndo (snd (deauthorize d s)) (fst (deauthorize d s)))) a
             = auths s a) /\
  (forall cli,
      transports (fst (runUndo (snd (deauthorize d s)) (fst (deauthorize d s)))) cli
      = transports s cli) /\
  (authOf s d <> None ->
   snd (runUndo (snd (deauthorize d s)) (fst (deauthorize d s))) = []) /\
  (authOf s d = None ->
   fst (deauthorize d s) = s /\
   snd (runUndo (snd (deauthorize d s)) (fst (deauthorize d s)))
   = ["warning: client no deauthorized"%string]).
Proof.
  destruct (deauthorize_cases d s) as [[Hnone ->] | [au [Hsome ->]]]; cbn [fst snd runUndo];
    (split; [| split; [| split]]).
  - reflexivity.
  - reflexivity.
  - intros H. contradiction.
  - intros _. split; reflexivity.
  - intros a. destruct (Nat.eq_dec a au) as [-> | Hne].
    + rewrite setToken_same, setToken_same. cbn. destruct (auths s au); reflexivity.
    + rewrite !setToken_other by assumption. reflexivity.
  - reflexivity.
  - reflexivity.
  - intros H. rewrite Hsome in H. discriminate.
Qed.

Lemma deauthorize_then_undo_witness :
  snd (runUndo (snd (deauthorize (RefClient 0) demoSession))
         (fst (deauthorize (RefClient 0) demoSession))) = [] /\
  snd (runUndo (snd (deauthorize (RefHTTPClient 1) demoSession))
         (fst (deauthorize (RefHTTPClient 1) demoSession)))
  = ["warning: client no deauthorized"%string].
Proof.
  split.
  - apply (deauthorize_then_undo (RefClient 0) demoSession). cbn. discriminate.
  - apply (deauthorize_then_undo (RefHTTPClient 1) demoSession). reflexivity.
Defined.

(** X10: between [deauthorize] and the call of its closure, every doer
    that sends through the same [*auth] carries the empty token, the
    host of that [*auth] is untouched, and the doers behind another
    [*auth] keep their token. *)
Theorem deauthorize_empties_shared_token (d : doerRef) (s : session) (au : nat) :
  authOf s d = Some au ->
  (forall d', authOf s d' = Some au ->
     tokenOf (fst (deauthorize d s)) d' = Some ""%string) /\
  (forall d' au', authOf s d' = Some au' -> au' <> au ->
     tokenOf (fst (deauthorize d s)) d' = tokenOf s d') /\
  (forall a, au_host (auths (fst (deauthorize d s)) a) = au_host (auths s a)).
Proof.
  intros Hd.
  destruct (deauthorize_cases d s) as [[Hnone _] | [au0 [Hsome ->]]]; [congruence |].
  assert (au0 = au) by congruence. subst au0. cbn [fst].
  repeat split.
  - intros d' Hd'. unfold tokenOf. rewrite authOf_setToken, Hd', setToken_same.
    reflexivity.
  - intros d' au' Hd' Hne. unfold tokenOf. rewrite authOf_setToken, Hd'.
    rewrite setToken_other by assumption. reflexivity.
  - intros a. destruct (Nat.eq_dec a au) as [-> | Hne].
    + rewrite setToken_same. reflexivity.
    + rewrite setToken_other by assumption. reflexivity.
Qed.

Lemma deauthorize_empties_shared_token_witness :
  tokenOf (fst (deauthorize (RefClient 0) demoSession)) (RefHTTPClient 0)
  = Some ""%string.
Proof.
  refine (proj1 (@deauthorize_empties_shared_token (RefClient 0) demoSession 5 eq_refl)
            (RefHTTPClient 0) eq_refl).
Defined.

(** X11: two calls of [deauthorize] on doers behind one [*auth] must be
    undone in reverse order: the second call captures the empty token,
    so its closure called last leaves the token empty, while called
    first, before the closure of the first call, it lets the token come
    back. *)
Theorem deauthorize_nested (d1 d2 : doerRef) (s : session) (au : nat) :
  authOf s d1 = Some au ->
  authOf s d2 = Some au ->
  let s1 := fst (deauthorize d1 s) in
  let undo1 := snd (deauthorize d1 s) in
  let s2 := fst (deauthorize d2 s1) in
  let undo2 := snd (deauthorize d2 s1) in
  au_token (auths (fst (runUndo undo1 (fst (runUndo undo2 s2)))) au)
  = au_token (auths s au) /\
  au_token (auths (fst (runUndo undo2 (fst (runUndo undo1 s2)))) au) = ""%string.
Proof.
  intros H1 H2.
  destruct (deauthorize_cases d1 s) as [[Hnone _] | [a1 [Hsome1 E1]]]; [congruence |].
  assert (a1 = au) by congruence. subst a1. rewrite E1. cbn [fst snd].
  destruct (deauthorize_cases d2 (setToken s au "")) as [[Hnone _] | [a2 [Hsome2 E2]]];
    rewrite authOf_setToken in *; [congruence |].
  assert (a2 = au) by congruence. subst a2. rewrite E2. cbn [fst snd runUndo].
  rewrite !setToken_same. cbn. split; reflexivity.
Qed.

Lemma deauthorize_nested_witness :
  au_token
    (auths
       (fst (runUndo (snd (deauthorize (RefHTTPClient 0)
                              (fst (deauthorize (RefClient 0) demoSession))))
               (fst (runUndo (snd (deauthorize (RefClient 0) demoSession))
                       (fst (deauthorize (RefHTTPClient 0)
                               (fst (deauthorize (RefClient 0) demoSession)))))))) 5)
  = ""%string.
Proof.
  exact (proj2 (@deauthorize_nested (RefClient 0) (RefHTTPClient 0) demoSession 5
                  eq_refl eq_refl)).
Defined.

(** X12: what a collecting loop returns does not depend on how the two
    goroutines are scheduled: on any server, two runs that return,
    return the same slice and the same error. *)
Theorem collects_same_result {Item : Type} (env : Env) (p : paginated Item)
  (r1 r2 : list Item * option error) :
  collects env p r1 -> collects env p r2 -> r1 = r2.
Proof.
  intros [s1 [Hs1 Hr1]] [s2 [Hs2 Hr2]].
  eapply collects_unique;
    [apply collect_init_settled | exact Hs2 | exact Hr2 | exact Hs1 | exact Hr1].
Qed.

Lemma collects_same_result_witness :
  ~ Users demoEnv demoCourse [] ([], None).
Proof.
  intros H. pose proof (collects_same_result H demo_users_collected) as E.
  discriminate E.
Defined.
